(** * NodeGraph: the force-directed graph view of [src/Graph.js]

    A shallow embedding of the [Graph] component: the sample graph it
    builds, its drag handlers ([onDragStart], [onDragMove], [onDragEnd]),
    its tick callback ([updatePositions], [drawNode]) and the part of the
    force simulation the handlers talk to.

    JavaScript numbers are modelled as rationals [Q] (coordinates, alpha,
    opacities) and as [nat] where the code only counts ([linkCount], the
    radius derived from it, array indices).  Object references are indices
    into the store that holds the objects: a node reference is an index
    into the [nodes] array, a circle reference an index into the list of
    circle [Graphics] objects.  A property that is [null] or absent is
    [None]. *)

From Stdlib Require Import QArith Qround Lqa Lia.
From stdpp Require Import base option list.

Local Open Scope nat_scope.

(** ** Data model *)

(** A node object: [{id, x, y, linkCount}] from the generator, [circle]
    added when its circle is created, [vx]/[vy] kept by the simulation and
    [fx]/[fy] written by the drag handlers. *)
Record Node := mkNode {
  id : nat;
  x : Q;
  y : Q;
  linkCount : nat;
  vx : Q;
  vy : Q;
  fx : option Q;
  fy : option Q;
  circle : option nat
}.

(** A link object [{source, target}]: two node references. *)
Record Link := mkLink {
  source : nat;
  target : nat
}.

Definition set_linkCount (k : nat) (n : Node) : Node :=
  mkNode (id n) (x n) (y n) k (vx n) (vy n) (fx n) (fy n) (circle n).

Definition set_fx (p : option Q) (n : Node) : Node :=
  mkNode (id n) (x n) (y n) (linkCount n) (vx n) (vy n) p (fy n) (circle n).

Definition set_fy (p : option Q) (n : Node) : Node :=
  mkNode (id n) (x n) (y n) (linkCount n) (vx n) (vy n) (fx n) p (circle n).

Definition set_circle (c : option nat) (n : Node) : Node :=
  mkNode (id n) (x n) (y n) (linkCount n) (vx n) (vy n) (fx n) (fy n) c.

(** ** Sample graph construction *)

Module Build.

(** [Math.floor(Math.random() * nodes.length)] for a draw [r] of
    [Math.random()] over an array of [len] elements.  A draw is in [0, 1),
    so the index picked is in range and names a node of the array. *)
Definition pick (r : Q) (len : nat) : nat :=
  Z.to_nat (Qfloor (r * inject_Z (Z.of_nat len))).

Section Random.

(** The draws of [Math.random()]: [rnd_pos i] are the two draws made for
    node [i], [rnd_link k] the two made for the [k]-th generated link. *)
Variable rnd_pos : nat -> Q * Q.
Variable rnd_link : nat -> Q * Q.
Variables width height : Q.

(** [Array.from({ length: 20 }, (_, i) => ({ id: i, x: ..., y: ...,
    linkCount: 0 }))] *)
Definition sample_nodes : list Node :=
  map (fun i => mkNode i (fst (rnd_pos i) * width) (snd (rnd_pos i) * height)
                       0 0 0 None None None)
      (seq 0 20).

(** [source.linkCount++] *)
Definition incr_linkCount (n : Node) : Node :=
  set_linkCount (S (linkCount n)) n.

(** The callback of [Array.from({ length: 30 }, () => ...)]: it picks two
    nodes, counts the link on both ends unless they are the same node,
    and returns the link in either case. *)
Definition gen_link (st : list Node * list Link) (k : nat)
  : list Node * list Link :=
  let nodes := fst st in
  let src := pick (fst (rnd_link k)) (length nodes) in
  let tgt := pick (snd (rnd_link k)) (length nodes) in
  let nodes' :=
    if bool_decide (src <> tgt)
    then alter incr_linkCount tgt (alter incr_linkCount src nodes)
    else nodes in
  (nodes', snd st ++ [mkLink src tgt]).

(** [.filter(l => l.source !== l.target)] *)
Definition not_self (l : Link) : Prop := source l <> target l.

Definition gen_links (nodes : list Node) (ks : list nat)
  : list Node * list Link :=
  let st := foldl gen_link (nodes, []) ks in
  (fst st, filter not_self (snd st)).

Definition sample_links (nodes : list Node) : list Node * list Link :=
  gen_links nodes (seq 0 30).

End Random.

(** The number of links incident to node [i]. *)
Definition degree (links : list Link) (i : nat) : nat :=
  length (filter (fun l => source l = i) links)
  + length (filter (fun l => target l = i) links).

End Build.

(** ** Rendering *)

(** [const radius = 4 + linkCount*2] *)
Definition radius (linkCount : nat) : nat := 4 + linkCount * 2.

(** A call on a PIXI [Graphics] object. *)
Inductive Cmd :=
| clear
| beginFill (color : Z) (opacity : Q)
| lineStyle (w : Q) (color : Z) (opacity : Q)
| moveTo (px py : Q)
| lineTo (px py : Q)
| endFill
| drawCircle (px py : Q) (r : nat).

(** A [Graphics] object: its display opacity [alpha], the geometry drawn
    on it so far, and the [node] back reference the code stores on the
    circles ([circle.node = node]). *)
Record Graphics := mkGraphics {
  alpha : Q;
  geometry : list Cmd;
  node : option nat
}.

Definition set_alpha (a : Q) (g : Graphics) : Graphics :=
  mkGraphics a (geometry g) (node g).

(** The effect of one call on the object it is made on: [clear()] drops
    what was drawn, every other call adds to it. *)
Definition draw (c : Cmd) (g : Graphics) : Graphics :=
  match c with
  | clear => mkGraphics (alpha g) [] (node g)
  | _ => mkGraphics (alpha g) (geometry g ++ [c]) (node g)
  end.

(** The object a call is made on: [graphicsRef.current], the layer of the
    links, or the circle of a node. *)
Inductive Target :=
| LinkLayer
| Circle (c : nat).

(** ** Simulation state *)

(** Modelled from the spec: the force simulation is the imported d3-force
    library, which is not under src/.  Its state is the energy scalar
    alpha, the alphaTarget, and whether the tick loop is scheduled. *)
Record Simulation := mkSimulation {
  sim_alpha : Q;
  sim_alphaTarget : Q;
  sim_running : bool
}.

(** Modelled from the spec: [reheat()], the [simulation.alpha(1).restart()]
    of the source, missing with d3-force: "reset alpha to 1 and resume
    ticking". *)
Definition reheat (s : Simulation) : Simulation :=
  mkSimulation 1 (sim_alphaTarget s) true.

(** Modelled from the spec: [setAlphaTarget(v)], the
    [simulation.alphaTarget(v)] of the source, missing with d3-force. *)
Definition setAlphaTarget (v : Q) (s : Simulation) : Simulation :=
  mkSimulation (sim_alpha s) v (sim_running s).

(** The state of the simulation the handlers keep: no alphaTarget, and
    alpha in the unit interval. *)
Definition alpha_ok (s : Simulation) : Prop :=
  sim_alphaTarget s = 0%Q /\ (0 <= sim_alpha s <= 1)%Q.

(** ** The state the closures of [initializePixi] share *)

(** The listeners registered on [app.stage], as the number of
    registrations of the handler bound to each event: [onDragMove] for
    [pointermove], [onDragEnd] for the other two. *)
Record Listeners := mkListeners {
  pointermove : nat;
  pointerup : nat;
  pointerupoutside : nat
}.

Record World := mkWorld {
  nodes : list Node;
  links : list Link;
  graphics : Graphics;
  circles : list Graphics;
  dragTarget : option nat;
  simulation : Simulation;
  stage : Listeners
}.

Definition with_nodes (f : list Node -> list Node) (w : World) : World :=
  mkWorld (f (nodes w)) (links w) (graphics w) (circles w) (dragTarget w)
          (simulation w) (stage w).

Definition with_graphics (f : Graphics -> Graphics) (w : World) : World :=
  mkWorld (nodes w) (links w) (f (graphics w)) (circles w) (dragTarget w)
          (simulation w) (stage w).

Definition with_circles (f : list Graphics -> list Graphics) (w : World)
  : World :=
  mkWorld (nodes w) (links w) (graphics w) (f (circles w)) (dragTarget w)
          (simulation w) (stage w).

Definition with_dragTarget (d : option nat) (w : World) : World :=
  mkWorld (nodes w) (links w) (graphics w) (circles w) d
          (simulation w) (stage w).

Definition with_simulation (f : Simulation -> Simulation) (w : World)
  : World :=
  mkWorld (nodes w) (links w) (graphics w) (circles w) (dragTarget w)
          (f (simulation w)) (stage w).

Definition with_pointermove (k : nat) (w : World) : World :=
  mkWorld (nodes w) (links w) (graphics w) (circles w) (dragTarget w)
          (simulation w)
          (mkListeners k (pointerup (stage w)) (pointerupoutside (stage w))).

(** ** Drag handlers *)

(** [dragTarget.node]: the node behind the circle being dragged. *)
Definition dragTarget_node (w : World) : option nat :=
  c ← dragTarget w; g ← circles w !! c; node g.

(** An assignment to a property of [dragTarget.node]. *)
Definition assign_dragTarget_node (f : Node -> Node) (w : World) : World :=
  match dragTarget_node w with
  | Some i => with_nodes (alter f i) w
  | None => w
  end.

(** An assignment to a property of [dragTarget] itself. *)
Definition assign_dragTarget (f : Graphics -> Graphics) (w : World) : World :=
  match dragTarget w with
  | Some c => with_circles (alter f c) w
  | None => w
  end.

(** [function onDragMove(event)], with [event.global] = [(gx, gy)]. *)
Definition onDragMove (gx gy : Q) (w : World) : World :=
  match dragTarget w with
  | Some _ =>
      let w := assign_dragTarget_node (set_fx (Some gx)) w in
      let w := assign_dragTarget_node (set_fy (Some gy)) w in
      with_simulation reheat w
  | None => w
  end.

(** [function onDragStart(event)], called with [this] the circle [c]. *)
Definition onDragStart (c : nat) (gx gy : Q) (w : World) : World :=
  let w := with_circles (alter (set_alpha (1 # 2)) c) w in
  let w := with_dragTarget (Some c) w in
  let w := assign_dragTarget_node (set_fx (Some gx)) w in
  let w := assign_dragTarget_node (set_fy (Some gy)) w in
  with_pointermove (S (pointermove (stage w))) w.

(** [function onDragEnd()]; [off] removes every registration of the
    listener. *)
Definition onDragEnd (w : World) : World :=
  match dragTarget w with
  | Some _ =>
      let w := with_pointermove 0 w in
      let w := assign_dragTarget (set_alpha 1) w in
      let w := assign_dragTarget_node (set_fx None) w in
      let w := assign_dragTarget_node (set_fy None) w in
      let w := with_dragTarget None w in
      with_simulation (setAlphaTarget 0) w
  | None => w
  end.

(** ** The tick callback *)

(** The two calls that draw one link, made when both ends are there
    ([if (link.source && link.target)]). *)
Definition link_calls (ns : list Node) (l : Link) : list Cmd :=
  match ns !! source l, ns !! target l with
  | Some s, Some t => [moveTo (x s) (y s); lineTo (x t) (y t)]
  | _, _ => []
  end.

(** [function drawNode(graphic, x, y, linkCount)] *)
Definition drawNode (px py : Q) (linkCount : nat) : list Cmd :=
  [clear; beginFill 0x66ccff 1; drawCircle px py (radius linkCount); endFill].

(** The body of [nodesRef.current.forEach] in [updatePositions]. *)
Definition node_calls (n : Node) : list (Target * Cmd) :=
  match circle n with
  | Some c => map (pair (Circle c)) (clear :: drawNode (x n) (y n) (linkCount n))
  | None => []
  end.

(** The calls [updatePositions] makes, in the order it makes them. *)
Definition updatePositions_calls (w : World) : list (Target * Cmd) :=
  map (pair LinkLayer)
      ([clear; beginFill 0 0; lineStyle 2 0xffffff (6 # 10)]
         ++ concat (map (link_calls (nodes w)) (links w))
         ++ [endFill])
  ++ concat (map node_calls (nodes w)).

Definition exec (w : World) (call : Target * Cmd) : World :=
  match fst call with
  | LinkLayer => with_graphics (draw (snd call)) w
  | Circle c => with_circles (alter (draw (snd call)) c) w
  end.

(** [function updatePositions()] *)
Definition updatePositions (w : World) : World :=
  foldl exec w (updatePositions_calls w).

(** The calls that draw a line segment, and the call that draws a circle. *)
Definition is_line (c : Cmd) : bool :=
  match c with
  | moveTo _ _ | lineTo _ _ => true
  | _ => false
  end.

Definition is_circle (c : Cmd) : bool :=
  match c with
  | drawCircle _ _ _ => true
  | _ => false
  end.

(** ** Setting up the scene *)

Definition draw_all (cs : list Cmd) (g : Graphics) : Graphics :=
  foldl (fun g c => draw c g) g cs.

(** The scene [initializePixi] sets up around a graph: the layer with the
    links drawn once, one interactive circle per node (circle [i] belongs
    to node [i]), no drag in progress, and [onDragEnd] registered for
    [pointerup] and [pointerupoutside].  The simulation [d3.forceSimulation]
    returns is running, with alpha 1 and no alphaTarget. *)
Definition scene (ns : list Node) (ls : list Link) : World :=
  mkWorld
    (imap (fun i n => set_circle (Some i) n) ns)
    ls
    (draw_all ([beginFill 0 0; lineStyle 2 0xffffff (6 # 10)]
                 ++ concat (map (link_calls ns) ls) ++ [endFill])
              (mkGraphics 1 [] None))
    (imap (fun i n => draw_all (drawNode (x n) (y n) (linkCount n))
                               (mkGraphics 1 [] (Some i))) ns)
    None
    (mkSimulation 1 0 true)
    (mkListeners 0 1 1).

(** The state [initializePixi] leaves behind: the scene around the sample
    graph. *)
Definition initial_world (rnd_pos rnd_link : nat -> Q * Q) (width height : Q)
  : World :=
  let built := Build.sample_links rnd_link
                 (Build.sample_nodes rnd_pos width height) in
  scene (fst built) (snd built).

(** ** The simulation's tick and the event loop *)

Inductive Event :=
| PointerDown (c : nat) (gx gy : Q)
| PointerMove (gx gy : Q)
| PointerUp
| PointerUpOutside
| Tick.

Section Engine.

(** The configuration of the engine: the rate alpha is multiplied by on
    a tick, the threshold below which the tick loop stops, and the net
    force the configured forces (charge, link, center) exert on the node
    at an index. *)
Variable alphaRate : Q.
Variable alphaMin : Q.
Variable net_force : list Node -> list Link -> nat -> Q * Q.

(** Modelled from the spec: the integration step of the engine, missing
    with d3-force: "each node's velocity accumulates the net force scaled
    by alpha, then position += velocity, except when the node has a
    non-null pinned position, in which case position is clamped to
    (fx, fy)". *)
Definition integrate (a : Q) (F : Q * Q) (n : Node) : Node :=
  let vx' := (vx n + a * fst F)%Q in
  let vy' := (vy n + a * snd F)%Q in
  mkNode (id n)
         (match fx n with Some p => p | None => x n + vx' end)%Q
         (match fy n with Some p => p | None => y n + vy' end)%Q
         (linkCount n) vx' vy' (fx n) (fy n) (circle n).

(** Modelled from the spec: the decay of alpha, missing with d3-force:
    "alpha decays by a fixed multiplicative rate or is left at a fixed
    alphaTarget if one is set"; a target of 0 is no target ("set
    alphaTarget back to 0 so the simulation is allowed to settle"). *)
Definition decay (s : Simulation) : Simulation :=
  mkSimulation
    (if Qeq_bool (sim_alphaTarget s) 0
     then sim_alpha s * alphaRate
     else sim_alphaTarget s)%Q
    (sim_alphaTarget s) (sim_running s).

(** Modelled from the spec: one tick of the engine, missing with
    d3-force: integrate every node, then decay alpha. *)
Definition tick (w : World) : World :=
  let a := sim_alpha (simulation w) in
  let w :=
    with_nodes
      (imap (fun i n => integrate a (net_force (nodes w) (links w) i) n)) w in
  with_simulation decay w.

Definition stop (s : Simulation) : Simulation :=
  mkSimulation (sim_alpha s) (sim_alphaTarget s) false.

(** Modelled from the spec: one turn of the tick loop, missing with
    d3-force: a tick, the tick notification ([.on("tick",
    updatePositions)]), and no further tick scheduled "once alpha falls
    below a small threshold". *)
Definition step (w : World) : World :=
  let w := updatePositions (tick w) in
  if Qlt_le_dec (sim_alpha (simulation w)) alphaMin
  then with_simulation stop w
  else w.

(** The dispatch of one event: a pointer-down goes to the circle it hit,
    the other pointer events to the listeners of [app.stage], a tick
    happens while the simulation runs. *)
Definition handle (e : Event) (w : World) : World :=
  match e with
  | PointerDown c gx gy =>
      match circles w !! c with
      | Some _ => onDragStart c gx gy w
      | None => w
      end
  | PointerMove gx gy => Nat.iter (pointermove (stage w)) (onDragMove gx gy) w
  | PointerUp => Nat.iter (pointerup (stage w)) onDragEnd w
  | PointerUpOutside => Nat.iter (pointerupoutside (stage w)) onDragEnd w
  | Tick => if sim_running (simulation w) then step w else w
  end.

Definition run (es : list Event) (w : World) : World :=
  foldl (fun w e => handle e w) w es.

(** An event that resets alpha to 1: a pointer-move that reaches
    [onDragMove] while a node is dragged. *)
Definition reheats (e : Event) (w : World) : bool :=
  match e with
  | PointerMove _ _ =>
      bool_decide (0 < pointermove (stage w))
      && bool_decide (is_Some (dragTarget w))
  | _ => false
  end.

End Engine.

(** What holds of the state whatever events have been handled: [onDragEnd]
    stays registered once for each of its two events, node [c] and circle
    [c] refer to each other, and [onDragMove] is registered exactly while a
    circle is the drag target. *)
Definition wired (w : World) : Prop :=
  pointerup (stage w) = 1
  /\ pointerupoutside (stage w) = 1
  /\ node <$> circles w = Some <$> seq 0 (length (nodes w))
  /\ circle <$> nodes w = Some <$> seq 0 (length (nodes w))
  /\ match dragTarget w with
     | Some c => c < length (nodes w) /\ 0 < pointermove (stage w)
     | None => pointermove (stage w) = 0
     end.

(** ** Vocabulary for the further properties *)

(** A value [Math.random()] can return: a number in [0, 1). *)
Definition in_unit (r : Q) : Prop := (0 <= r < 1)%Q.

(** The sum of the [linkCount] of the nodes. *)
Definition total_linkCount (ns : list Node) : nat :=
  sum_list_with linkCount ns.

(** A link both ends of which are nodes of the array: the links the
    render draws. *)
Definition drawable (ns : list Node) (l : Link) : Prop :=
  is_Some (ns !! source l) /\ is_Some (ns !! target l).

(** What the simulation and the generator own of a node: everything but
    the pin. *)
Definition unpinned_part (n : Node) : nat * Q * Q * nat * Q * Q * option nat :=
  (id n, x n, y n, linkCount n, vx n, vy n, circle n).

(** The calls [updatePositions] makes on the link layer after clearing
    it, and what it leaves on the circle of a node. *)
Definition link_layer_geometry (ns : list Node) (ls : list Link) : list Cmd :=
  [beginFill 0 0; lineStyle 2 0xffffff (6 # 10)]
    ++ concat (map (link_calls ns) ls) ++ [endFill].

Definition circle_geometry (n : Node) : list Cmd :=
  [beginFill 0x66ccff 1; drawCircle (x n) (y n) (radius (linkCount n)); endFill].

Definition drawable_dec (ns : list Node) (l : Link) : Decision (drawable ns l) :=
  and_dec (is_Some_dec (ns !! source l)) (is_Some_dec (ns !! target l)).

#[global] Existing Instance drawable_dec.

(** ** A concrete instance *)

Module Demo.

(** Draws in the unit interval, spread over the canvas and over the
    twenty nodes; every fifth generated link is a self-link. *)
Definition rnd_pos (i : nat) : Q * Q :=
  (inject_Z (Z.of_nat (i mod 20)) / 20, inject_Z (Z.of_nat (7 * i mod 20)) / 20)%Q.

Definition rnd_link (k : nat) : Q * Q :=
  (inject_Z (Z.of_nat (k mod 20)) / 20,
   inject_Z (Z.of_nat (if k mod 5 =? 0 then k mod 20 else (3 * k + 1) mod 20)) / 20)%Q.

Definition world : World := initial_world rnd_pos rnd_link 800 600.

(** An engine that halves alpha on a tick, stops below 1/1000, and
    pushes every node one unit to the right. *)
Definition alphaRate : Q := 1 # 2.
Definition alphaMin : Q := 1 # 1000.
Definition net_force (ns : list Node) (ls : list Link) (i : nat) : Q * Q :=
  (1, 0)%Q.

Definition handle := handle alphaRate alphaMin net_force.
Definition run := run alphaRate alphaMin net_force.
Definition step := step alphaRate alphaMin net_force.

(** The first circle pressed at (10, 10). *)
Definition dragging : World := run [PointerDown 0 10 10] world.

(** One tick with nobody dragging: alpha is down to 1/2. *)
Definition cooled : World := run [Tick] world.

(** Ten ticks: alpha is below the threshold and the tick loop stopped. *)
Definition settled : World := run (replicate 10 Tick) world.

(** The first circle pressed, then one tick. *)
Definition dragging_cooled : World := run [PointerDown 0 10 10; Tick] world.

End Demo.

(** ** Proof automation *)

(** Unfolds the drag handlers and takes the cases of every test in them. *)
Ltac handler_cases :=
  unfold onDragStart, onDragMove, onDragEnd, assign_dragTarget_node,
    assign_dragTarget;
  repeat match goal with
         | |- context [match ?d with _ => _ end] => destruct d eqn:?
         end;
  cbn.

(** Splits a conjunction of closed facts and evaluates each. *)
Ltac evaluate :=
  repeat match goal with |- _ /\ _ => split end;
  vm_compute; reflexivity.

(** Evaluates a closed fact about draws or about the wiring of a state. *)
Ltac evaluate_fact :=
  unfold wired, in_unit;
  repeat match goal with |- _ /\ _ => split end;
  vm_compute; first [reflexivity | discriminate | lia].

(** The draws of the instance are values [Math.random()] can return. *)
Ltac demo_draws :=
  let k := fresh "k" in
  let Hk := fresh "Hk" in
  intros k Hk;
  do 30 (destruct k as [|k]; [evaluate_fact|]);
  lia.

(** * Properties *)

(** ** The sample graph *)

Section BuildFacts.

Variable rnd_link : nat -> Q * Q.

Lemma gen_links_not_self (ns : list Node) (ks : list nat) :
  Forall Build.not_self (snd (Build.gen_links rnd_link ns ks)).
Proof.
  unfold Build.gen_links; simpl.
  apply Forall_forall. intros l Hl.
  apply list_elem_of_filter in Hl. tauto.
Qed.

(** One generated link adds to the [linkCount] of a node what it adds to
    the node's degree among the links that are kept. *)
Lemma gen_link_count (st : list Node * list Link) (k i : nat) (n : Node) :
  fst st !! i = Some n ->
  exists n',
    fst (Build.gen_link rnd_link st k) !! i = Some n'
    /\ linkCount n'
       + Build.degree (filter Build.not_self (snd st)) i
       = linkCount n
         + Build.degree
             (filter Build.not_self (snd (Build.gen_link rnd_link st k))) i.
Proof.
  intros Hn. unfold Build.gen_link. cbn [fst snd].
  set (s := Build.pick _ _). set (t := Build.pick _ _).
  rewrite filter_app. set (kept := filter Build.not_self (snd st)).
  rewrite (filter_singleton Build.not_self (mkLink s t) []).
  unfold Build.degree.
  destruct (decide (Build.not_self (mkLink s t))) as [Hst|Hst];
    unfold Build.not_self in Hst; cbn [source target] in Hst.
  - rewrite bool_decide_eq_true_2 by done.
    rewrite !filter_app, !length_app.
    rewrite !(filter_singleton _ (mkLink s t) []). cbn [source target].
    rewrite !list_lookup_alter.
    repeat (case_decide; subst; try congruence); rewrite ?Hn; cbn.
    all: eexists; split; [reflexivity | cbn; lia].
  - rewrite bool_decide_eq_false_2 by done. rewrite app_nil_r.
    exists n. split; [done | lia].
Qed.

Lemma foldl_gen_link_count (ks : list nat) :
  forall (st : list Node * list Link) (i : nat) (n : Node),
    fst st !! i = Some n ->
    exists n',
      fst (foldl (Build.gen_link rnd_link) st ks) !! i = Some n'
      /\ linkCount n'
         + Build.degree (filter Build.not_self (snd st)) i
         = linkCount n
           + Build.degree
               (filter Build.not_self
                  (snd (foldl (Build.gen_link rnd_link) st ks))) i.
Proof.
  induction ks as [|k ks IH]; intros st i n Hn; cbn [foldl].
  - exists n. split; [done | lia].
  - destruct (gen_link_count st k i n Hn) as (n1 & Hn1 & E1).
    destruct (IH _ i n1 Hn1) as (n2 & Hn2 & E2).
    exists n2. split; [done | lia].
Qed.

(** After the links are generated, a node that started with no link
    counted has its degree as [linkCount]. *)
Lemma gen_links_linkCount (ns : list Node) (ks : list nat) (i : nat) (n : Node) :
  ns !! i = Some n ->
  linkCount n = 0 ->
  exists n',
    fst (Build.gen_links rnd_link ns ks) !! i = Some n'
    /\ linkCount n' = Build.degree (snd (Build.gen_links rnd_link ns ks)) i.
Proof.
  intros Hn H0. unfold Build.gen_links. cbn [fst snd].
  destruct (foldl_gen_link_count ks (ns, []) i n Hn) as (n' & Hn' & E).
  exists n'. split; [done|].
  cbn [snd] in E. rewrite filter_nil in E. unfold Build.degree at 1 in E.
  rewrite !filter_nil in E. cbn in E. lia.
Qed.

End BuildFacts.

Lemma sample_nodes_linkCount rnd_pos width height (i : nat) (n : Node) :
  Build.sample_nodes rnd_pos width height !! i = Some n -> linkCount n = 0.
Proof.
  unfold Build.sample_nodes. intros H.
  apply list_lookup_fmap_Some in H as (k & -> & _). reflexivity.
Qed.

Lemma initial_world_scene
      (rnd_pos rnd_link : nat -> Q * Q) (width height : Q) :
  initial_world rnd_pos rnd_link width height
  = scene (fst (Build.sample_links rnd_link
                  (Build.sample_nodes rnd_pos width height)))
          (snd (Build.sample_links rnd_link
                  (Build.sample_nodes rnd_pos width height))).
Proof. reflexivity. Qed.

(** ** Frame lemmas for the handlers *)

Lemma dragTarget_node_Some (w : World) (c i : nat) (g : Graphics) :
  dragTarget w = Some c -> circles w !! c = Some g -> node g = Some i ->
  dragTarget_node w = Some i.
Proof.
  intros Hd Hc Hn. unfold dragTarget_node. rewrite Hd. cbn. rewrite Hc. cbn.
  exact Hn.
Qed.

Lemma dragTarget_node_None (w : World) :
  dragTarget w = None -> dragTarget_node w = None.
Proof. intros Hd. unfold dragTarget_node. rewrite Hd. reflexivity. Qed.

Lemma assign_dragTarget_node_frame (f : Node -> Node) (w : World) :
  let w' := assign_dragTarget_node f w in
  links w' = links w /\ graphics w' = graphics w /\ circles w' = circles w
  /\ dragTarget w' = dragTarget w /\ simulation w' = simulation w
  /\ stage w' = stage w /\ dragTarget_node w' = dragTarget_node w.
Proof.
  unfold assign_dragTarget_node.
  destruct (dragTarget_node w) eqn:E; cbn; rewrite ?E; repeat split; try done.
Qed.

Lemma assign_dragTarget_node_nodes (f : Node -> Node) (w : World) (i : nat) :
  dragTarget_node w = Some i ->
  nodes (assign_dragTarget_node f w) = alter f i (nodes w).
Proof. intros E. unfold assign_dragTarget_node. rewrite E. reflexivity. Qed.

(** Two assignments to [dragTarget.node] in a row. *)
Lemma assign_twice (f1 f2 : Node -> Node) (w : World) (i : nat) :
  dragTarget_node w = Some i ->
  let w' := assign_dragTarget_node f2 (assign_dragTarget_node f1 w) in
  nodes w' = alter (f2 ∘ f1) i (nodes w)
  /\ links w' = links w /\ graphics w' = graphics w /\ circles w' = circles w
  /\ dragTarget w' = dragTarget w /\ simulation w' = simulation w
  /\ stage w' = stage w.
Proof.
  intros E. cbn zeta.
  destruct (assign_dragTarget_node_frame f1 w) as (L1 & G1 & C1 & D1 & S1 & T1 & N1).
  destruct (assign_dragTarget_node_frame f2 (assign_dragTarget_node f1 w))
    as (L2 & G2 & C2 & D2 & S2 & T2 & N2).
  cbn zeta in *.
  rewrite (assign_dragTarget_node_nodes f2 _ i) by (rewrite N1; exact E).
  rewrite (assign_dragTarget_node_nodes f1 _ i) by exact E.
  rewrite list_alter_alter_eq.
  repeat split; congruence.
Qed.

Lemma assign_twice_idle (f1 f2 : Node -> Node) (w : World) :
  dragTarget_node w = None ->
  assign_dragTarget_node f2 (assign_dragTarget_node f1 w) = w.
Proof.
  intros E. unfold assign_dragTarget_node at 2. rewrite E.
  unfold assign_dragTarget_node. rewrite E. reflexivity.
Qed.

(** What [onDragMove] does while a node is dragged. *)
Lemma onDragMove_dragging (gx gy : Q) (w : World) (c i : nat) (g : Graphics) :
  dragTarget w = Some c -> circles w !! c = Some g -> node g = Some i ->
  let w' := onDragMove gx gy w in
  nodes w' = alter (set_fy (Some gy) ∘ set_fx (Some gx)) i (nodes w)
  /\ links w' = links w /\ graphics w' = graphics w /\ circles w' = circles w
  /\ dragTarget w' = dragTarget w /\ simulation w' = reheat (simulation w)
  /\ stage w' = stage w.
Proof.
  intros Hd Hc Hn. cbn zeta. unfold onDragMove. rewrite Hd.
  pose proof (dragTarget_node_Some w c i g Hd Hc Hn) as E.
  destruct (assign_twice (set_fx (Some gx)) (set_fy (Some gy)) w i E)
    as (N & L & G & C & D & Sm & T).
  cbn zeta in *. cbn. rewrite N, L, G, C, D, Sm, T. repeat split; done.
Qed.

Lemma onDragMove_idle (gx gy : Q) (w : World) :
  dragTarget w = None -> onDragMove gx gy w = w.
Proof. intros Hd. unfold onDragMove. rewrite Hd. reflexivity. Qed.

(** What [onDragStart] does, whatever the state it is called in. *)
Lemma onDragStart_effect (c : nat) (gx gy : Q) (w : World) (i : nat) (g : Graphics) :
  circles w !! c = Some g -> node g = Some i ->
  let w' := onDragStart c gx gy w in
  nodes w' = alter (set_fy (Some gy) ∘ set_fx (Some gx)) i (nodes w)
  /\ links w' = links w /\ graphics w' = graphics w
  /\ circles w' = alter (set_alpha (1 # 2)) c (circles w)
  /\ dragTarget w' = Some c /\ simulation w' = simulation w
  /\ stage w' = mkListeners (S (pointermove (stage w))) (pointerup (stage w))
                            (pointerupoutside (stage w)).
Proof.
  intros Hc Hn. cbn zeta. unfold onDragStart.
  set (w1 := with_dragTarget _ _).
  assert (E : dragTarget_node w1 = Some i).
  { apply (dragTarget_node_Some w1 c i (set_alpha (1 # 2) g)); [done| |done].
    subst w1. cbn. rewrite list_lookup_alter_eq, Hc. done. }
  destruct (assign_twice (set_fx (Some gx)) (set_fy (Some gy)) w1 i E)
    as (N & L & G & C & D & Sm & T).
  cbn zeta in *. cbn. rewrite N, L, G, C, Sm, T. repeat split; done.
Qed.

(** What [onDragEnd] does while a node is dragged. *)
Lemma onDragEnd_dragging (w : World) (c i : nat) (g : Graphics) :
  dragTarget w = Some c -> circles w !! c = Some g -> node g = Some i ->
  let w' := onDragEnd w in
  nodes w' = alter (set_fy None ∘ set_fx None) i (nodes w)
  /\ links w' = links w /\ graphics w' = graphics w
  /\ circles w' = alter (set_alpha 1) c (circles w)
  /\ dragTarget w' = None
  /\ simulation w' = setAlphaTarget 0 (simulation w)
  /\ stage w' = mkListeners 0 (pointerup (stage w)) (pointerupoutside (stage w)).
Proof.
  intros Hd Hc Hn. cbn zeta. unfold onDragEnd. rewrite Hd.
  set (w1 := assign_dragTarget _ _).
  assert (E : dragTarget_node w1 = Some i).
  { apply (dragTarget_node_Some w1 c i (set_alpha 1 g)); [| |done].
    - subst w1. unfold assign_dragTarget. cbn. rewrite Hd. done.
    - subst w1. unfold assign_dragTarget. cbn. rewrite Hd. cbn.
      rewrite list_lookup_alter_eq, Hc. done. }
  destruct (assign_twice (set_fx None) (set_fy None) w1 i E)
    as (N & L & G & C & D & Sm & T).
  cbn zeta in *. cbn. rewrite N, L, G, C, Sm, T.
  subst w1. unfold assign_dragTarget. cbn. rewrite Hd. repeat split; done.
Qed.

Lemma onDragEnd_idle (w : World) : dragTarget w = None -> onDragEnd w = w.
Proof. intros Hd. unfold onDragEnd. rewrite Hd. reflexivity. Qed.

Lemma iter_onDragEnd_idle (k : nat) (w : World) :
  dragTarget w = None -> Nat.iter k onDragEnd w = w.
Proof.
  intros Hd. induction k as [|k IH]; [done|].
  rewrite Nat.iter_succ, IH. by apply onDragEnd_idle.
Qed.

Lemma iter_onDragMove_dragging (k : nat) (gx gy : Q) (w : World)
      (c i : nat) (g : Graphics) :
  dragTarget w = Some c -> circles w !! c = Some g -> node g = Some i ->
  let w' := Nat.iter (S k) (onDragMove gx gy) w in
  nodes w' = alter (set_fy (Some gy) ∘ set_fx (Some gx)) i (nodes w)
  /\ links w' = links w /\ graphics w' = graphics w /\ circles w' = circles w
  /\ dragTarget w' = dragTarget w /\ simulation w' = reheat (simulation w)
  /\ stage w' = stage w.
Proof.
  intros Hd Hc Hn. cbn zeta. induction k as [|k IH].
  - exact (onDragMove_dragging gx gy w c i g Hd Hc Hn).
  - rewrite Nat.iter_succ.
    destruct IH as (N & L & G & C & D & Sm & T).
    set (w1 := Nat.iter (S k) (onDragMove gx gy) w) in *.
    destruct (onDragMove_dragging gx gy w1 c i g) as (N' & L' & G' & C' & D' & Sm' & T');
      [congruence | congruence | done |].
    cbn zeta in *. rewrite N', L', G', C', D', Sm', T', N, Sm.
    rewrite list_alter_alter_eq. split; [|done].
    apply list_alter_ext; [|done]. intros [] _. reflexivity.
Qed.

(** ** The drag state machine *)

Section Controller.

Variables alphaRate alphaMin : Q.
Variable net_force : list Node -> list Link -> nat -> Q * Q.

(** C2, as amended.  At most one node is the drag target at a time, but
    a pointer-down on a node while a drag is in progress is not ignored:
    the node pressed becomes the drag target and its pinned position is
    set to the pointer coordinates; every other node, its pinned position
    included, is unchanged by that event. *)
Theorem pointer_down_while_dragging_retargets
        (w : World) (c0 c i : nat) (g : Graphics) (gx gy : Q) :
  dragTarget w = Some c0 ->
  circles w !! c = Some g -> node g = Some i ->
  let w' := handle alphaRate alphaMin net_force (PointerDown c gx gy) w in
  dragTarget w' = Some c
  /\ (forall n, nodes w !! i = Some n ->
                nodes w' !! i = Some (set_fy (Some gy) (set_fx (Some gx) n)))
  /\ (forall n, nodes w !! i = Some n ->
                exists n', nodes w' !! i = Some n'
                           /\ fx n' = Some gx /\ fy n' = Some gy
                           /\ unpinned_part n' = unpinned_part n)
  /\ (forall j, j <> i -> nodes w' !! j = nodes w !! j).
Proof.
  intros _ Hc Hn. cbn zeta. cbn [handle]. rewrite Hc.
  destruct (onDragStart_effect c gx gy w i g Hc Hn) as (N & _ & _ & _ & D & _).
  cbn zeta in *. rewrite N, D. split; [done|]. split; [|split].
  - intros n Hi. rewrite list_lookup_alter_eq, Hi. done.
  - intros n Hi. rewrite list_lookup_alter_eq, Hi. eexists. split; [done|].
    repeat split.
  - intros j Hj. by apply list_lookup_alter_ne.
Qed.

(** C3, as amended.  During an active drag, every pointer-move event
    updates the dragged node's pinned position (fx, fy) to the new
    pointer coordinates, and every such event reheats: the move handler
    resets alpha to 1 and restarts the simulation. *)
Theorem pointer_move_updates_pin_and_reheats
        (w : World) (c i : nat) (g : Graphics) (gx gy : Q) :
  dragTarget w = Some c ->
  circles w !! c = Some g -> node g = Some i ->
  0 < pointermove (stage w) ->
  let w' := handle alphaRate alphaMin net_force (PointerMove gx gy) w in
  dragTarget w' = Some c
  /\ (forall n, nodes w !! i = Some n ->
                nodes w' !! i = Some (set_fy (Some gy) (set_fx (Some gx) n)))
  /\ (forall n, nodes w !! i = Some n ->
                exists n', nodes w' !! i = Some n'
                           /\ fx n' = Some gx /\ fy n' = Some gy
                           /\ unpinned_part n' = unpinned_part n)
  /\ (forall j, j <> i -> nodes w' !! j = nodes w !! j)
  /\ sim_alpha (simulation w') = 1%Q
  /\ sim_running (simulation w') = true.
Proof.
  intros Hd Hc Hn Hk. cbn zeta. cbn [handle].
  destruct (pointermove (stage w)) as [|k]; [lia|].
  destruct (iter_onDragMove_dragging k gx gy w c i g Hd Hc Hn)
    as (N & _ & _ & _ & D & Sm & _).
  cbn zeta in *. rewrite N, D, Sm. split; [done|]. split; [|split; [|split]].
  - intros n Hi. rewrite list_lookup_alter_eq, Hi. done.
  - intros n Hi. rewrite list_lookup_alter_eq, Hi. eexists. split; [done|].
    repeat split.
  - intros j Hj. by apply list_lookup_alter_ne.
  - done.
Qed.

(** C4, as amended.  For every pointer-down event on a node while the
    controller is Idle, the transition to Dragging sets that node's
    pinned position (fx, fy) to the pointer's coordinates, dims its
    circle to opacity 0.5 and subscribes the move handler; the transition
    does not touch the simulation: alpha, alphaTarget and the tick loop
    are as before. *)
Theorem pointer_down_pins_without_reheat
        (w : World) (c i : nat) (g : Graphics) (gx gy : Q) :
  dragTarget w = None ->
  circles w !! c = Some g -> node g = Some i ->
  let w' := handle alphaRate alphaMin net_force (PointerDown c gx gy) w in
  dragTarget w' = Some c
  /\ (forall n, nodes w !! i = Some n ->
                nodes w' !! i = Some (set_fy (Some gy) (set_fx (Some gx) n)))
  /\ (forall n, nodes w !! i = Some n ->
                exists n', nodes w' !! i = Some n'
                           /\ fx n' = Some gx /\ fy n' = Some gy
                           /\ unpinned_part n' = unpinned_part n)
  /\ circles w' !! c = Some (set_alpha (1 # 2) g)
  /\ (exists g', circles w' !! c = Some g'
                  /\ alpha g' = (1 # 2)%Q
                  /\ geometry g' = geometry g /\ node g' = node g)
  /\ pointermove (stage w') = S (pointermove (stage w))
  /\ simulation w' = simulation w.
Proof.
  intros _ Hc Hn. cbn zeta. cbn [handle]. rewrite Hc.
  destruct (onDragStart_effect c gx gy w i g Hc Hn)
    as (N & _ & _ & C & D & Sm & T).
  cbn zeta in *. rewrite N, C, D, Sm, T.
  split; [done|]. split; [|split; [|split; [|split]]].
  - intros n Hi. rewrite list_lookup_alter_eq, Hi. done.
  - intros n Hi. rewrite list_lookup_alter_eq, Hi. eexists. split; [done|].
    repeat split.
  - rewrite list_lookup_alter_eq, Hc. done.
  - rewrite list_lookup_alter_eq, Hc. eexists. split; [done|]. repeat split.
  - done.
Qed.

(** C5.  For every pointer-up or pointer-up-outside event delivered
    while Dragging, the controller goes back to Idle: the dragged node's
    pinned position (fx, fy) is cleared to null, its circle is back at
    full opacity, and the simulation's alphaTarget is set to 0.  Nothing
    else of the node or of the circle changes, and the move handler is
    unsubscribed. *)
Theorem pointer_up_ends_drag
        (e : Event) (w : World) (c i : nat) (g : Graphics) (n : Node) :
  e = PointerUp \/ e = PointerUpOutside ->
  pointerup (stage w) = 1 -> pointerupoutside (stage w) = 1 ->
  dragTarget w = Some c ->
  circles w !! c = Some g -> node g = Some i -> nodes w !! i = Some n ->
  let w' := handle alphaRate alphaMin net_force e w in
  dragTarget w' = None
  /\ (exists n', nodes w' !! i = Some n'
                  /\ fx n' = None /\ fy n' = None
                  /\ unpinned_part n' = unpinned_part n)
  /\ (exists g', circles w' !! c = Some g'
                  /\ alpha g' = 1%Q
                  /\ geometry g' = geometry g /\ node g' = node g)
  /\ sim_alphaTarget (simulation w') = 0%Q
  /\ sim_alpha (simulation w') = sim_alpha (simulation w)
  /\ pointermove (stage w') = 0.
Proof.
  intros He Hup Hout Hd Hc Hn Hi. cbn zeta.
  assert (E : handle alphaRate alphaMin net_force e w = onDragEnd w).
  { destruct He as [-> | ->]; cbn [handle];
      [rewrite Hup | rewrite Hout]; reflexivity. }
  rewrite E.
  destruct (onDragEnd_dragging w c i g Hd Hc Hn) as (N & _ & _ & C & D & Sm & T).
  cbn zeta in *. rewrite N, C, D, Sm, T.
  rewrite !list_lookup_alter_eq, Hi, Hc.
  split; [done|]. split; [|split; [|done]].
  - eexists. split; [done|]. repeat split.
  - eexists. split; [done|]. repeat split.
Qed.

(** C10.  A pointer-up or pointer-up-outside event delivered while no
    drag is in progress changes nothing: no pinned position, no opacity,
    no subscription, and not the simulation's alphaTarget. *)
Theorem pointer_up_idle_noop (e : Event) (w : World) :
  e = PointerUp \/ e = PointerUpOutside ->
  dragTarget w = None ->
  handle alphaRate alphaMin net_force e w = w.
Proof.
  intros [-> | ->] Hd; cbn [handle]; by apply iter_onDragEnd_idle.
Qed.

End Controller.

(** ** The render *)

Lemma exec_frame (w : World) (call : Target * Cmd) :
  nodes (exec w call) = nodes w /\ links (exec w call) = links w
  /\ dragTarget (exec w call) = dragTarget w
  /\ simulation (exec w call) = simulation w /\ stage (exec w call) = stage w.
Proof. unfold exec. destruct (fst call); cbn; done. Qed.

Lemma foldl_exec_frame (calls : list (Target * Cmd)) :
  forall w : World,
    nodes (foldl exec w calls) = nodes w
    /\ links (foldl exec w calls) = links w
    /\ dragTarget (foldl exec w calls) = dragTarget w
    /\ simulation (foldl exec w calls) = simulation w
    /\ stage (foldl exec w calls) = stage w.
Proof.
  induction calls as [|call calls IH]; intros w; cbn [foldl]; [done|].
  destruct (IH (exec w call)) as (N & L & D & Sm & T).
  destruct (exec_frame w call) as (N' & L' & D' & Sm' & T').
  repeat split; congruence.
Qed.

(** Rendering changes no node, no link and nothing of the engine. *)
Lemma updatePositions_frame (w : World) :
  nodes (updatePositions w) = nodes w
  /\ links (updatePositions w) = links w
  /\ dragTarget (updatePositions w) = dragTarget w
  /\ simulation (updatePositions w) = simulation w
  /\ stage (updatePositions w) = stage w.
Proof. apply foldl_exec_frame. Qed.

Lemma link_calls_lines (ns : list Node) (ls : list Link) (c : Cmd) :
  c ∈ concat (map (link_calls ns) ls) -> is_line c = true.
Proof.
  induction ls as [|l ls IH]; cbn [map concat]; [by intros ?%elem_of_nil|].
  rewrite elem_of_app. intros [H|H]; [|by apply IH].
  unfold link_calls in H.
  destruct (ns !! source l), (ns !! target l);
    repeat (apply elem_of_cons in H as [-> | H]; [reflexivity|]);
    by apply elem_of_nil in H.
Qed.

Lemma node_calls_no_line (ns : list Node) (call : Target * Cmd) :
  call ∈ concat (map node_calls ns) -> is_line (snd call) = false.
Proof.
  induction ns as [|n ns IH]; cbn [map concat]; [by intros ?%elem_of_nil|].
  rewrite elem_of_app. intros [H|H]; [|by apply IH].
  unfold node_calls in H. destruct (circle n); cbn in H;
    repeat (apply elem_of_cons in H as [-> | H]; [reflexivity|]);
    by apply elem_of_nil in H.
Qed.

(** Every circle is drawn right after its own [Graphics] was cleared and
    its fill begun. *)
Lemma node_calls_clear_first (ns : list Node) :
  forall (j c : nat) (cj : Cmd),
    concat (map node_calls ns) !! j = Some (Circle c, cj) ->
    is_circle cj = true ->
    2 <= j
    /\ concat (map node_calls ns) !! (j - 2) = Some (Circle c, clear)
    /\ concat (map node_calls ns) !! (j - 1)
       = Some (Circle c, beginFill 0x66ccff 1).
Proof.
  induction ns as [|n ns IH]; intros j c cj Hj Hc; cbn [map concat] in *.
  - by rewrite lookup_nil in Hj.
  - destruct (decide (j < length (node_calls n))) as [Hlt|Hge].
    + rewrite lookup_app_l in Hj by done.
      unfold node_calls in *. destruct (circle n) as [c'|]; cbn in Hlt; [|lia].
      cbn [map drawNode app] in *.
      destruct j as [|[|[|[|[|j]]]]]; cbn in Hj; try lia;
        inversion Hj; subst; try discriminate Hc.
      cbn. split; [lia|]. split; reflexivity.
    + rewrite lookup_app_r in Hj by lia.
      destruct (IH _ _ _ Hj Hc) as (H2 & Hcl & Hbf).
      split; [lia|].
      rewrite !lookup_app_r by lia.
      replace (j - 2 - length (node_calls n))
        with (j - length (node_calls n) - 2) by lia.
      replace (j - 1 - length (node_calls n))
        with (j - length (node_calls n) - 1) by lia.
      done.
Qed.

Lemma draw_all_no_clear (cs : list Cmd) :
  forall g : Graphics,
    clear ∉ cs -> geometry (draw_all cs g) = geometry g ++ cs.
Proof.
  unfold draw_all.
  induction cs as [|c cs IH]; intros g Hc; cbn [foldl].
  - by rewrite app_nil_r.
  - rewrite IH by (intros ?; apply Hc; by right).
    assert (c <> clear) by (intros ->; apply Hc; by left).
    destruct c; try done; cbn; by rewrite <- app_assoc.
Qed.

Lemma draw_all_clear (cs : list Cmd) (g : Graphics) :
  draw_all (clear :: cs) g = draw_all cs (mkGraphics (alpha g) [] (node g)).
Proof. reflexivity. Qed.

Lemma foldl_exec_graphics (cs : list Cmd) :
  forall w : World,
    graphics (foldl exec w (map (pair LinkLayer) cs))
    = draw_all cs (graphics w).
Proof.
  unfold draw_all.
  induction cs as [|c cs IH]; intros w; cbn [map foldl]; [done|].
  rewrite IH. reflexivity.
Qed.

Lemma foldl_exec_circles_graphics (ns : list Node) :
  forall w : World,
    graphics (foldl exec w (concat (map node_calls ns))) = graphics w.
Proof.
  induction ns as [|n ns IH]; intros w; cbn [map concat]; [done|].
  rewrite foldl_app, IH.
  unfold node_calls. destruct (circle n); [|done].
  cbn. reflexivity.
Qed.

Lemma link_layer_calls_circles (cs : list Cmd) :
  forall w : World,
    circles (foldl exec w (map (pair LinkLayer) cs)) = circles w.
Proof.
  induction cs as [|c cs IH]; intros w; cbn [map foldl]; [done|].
  by rewrite IH.
Qed.

Lemma node_calls_other_circle (ns : list Node) (c : nat) :
  Forall (fun n => circle n <> Some c) ns ->
  forall w : World,
    circles (foldl exec w (concat (map node_calls ns))) !! c = circles w !! c.
Proof.
  induction 1 as [|n ns Hn _ IH]; intros w; cbn [map concat]; [done|].
  rewrite foldl_app, IH. unfold node_calls.
  destruct (circle n) as [c'|]; [|done].
  cbn. rewrite !list_lookup_alter_ne by congruence. done.
Qed.

Lemma node_calls_own_circle (n : Node) (c : nat) (g : Graphics) (w : World) :
  circle n = Some c -> circles w !! c = Some g ->
  circles (foldl exec w (node_calls n)) !! c
  = Some (mkGraphics (alpha g)
            [beginFill 0x66ccff 1;
             drawCircle (x n) (y n) (radius (linkCount n)); endFill]
            (node g)).
Proof.
  intros Hc Hg. unfold node_calls. rewrite Hc. cbn.
  rewrite !list_lookup_alter_eq, Hg. reflexivity.
Qed.

Lemma link_segment_calls (w : World) (l : Link) (s t : Node) :
  l ∈ links w ->
  nodes w !! source l = Some s -> nodes w !! target l = Some t ->
  exists j,
    updatePositions_calls w !! j = Some (LinkLayer, moveTo (x s) (y s))
    /\ updatePositions_calls w !! S j = Some (LinkLayer, lineTo (x t) (y t)).
Proof.
  intros Hl Hs Ht.
  apply list_elem_of_split in Hl as (l1 & l2 & E).
  assert (Ecalls : exists pre post,
             updatePositions_calls w
             = pre ++ (LinkLayer, moveTo (x s) (y s))
                   :: (LinkLayer, lineTo (x t) (y t)) :: post).
  { unfold updatePositions_calls. rewrite E.
    rewrite (map_app (link_calls (nodes w))), concat_app. cbn [map concat].
    unfold link_calls at 2. rewrite Hs, Ht.
    eexists (map (pair LinkLayer)
               ([clear; beginFill 0 0; lineStyle 2 16777215 (6 # 10)]
                  ++ concat (map (link_calls (nodes w)) l1))).
    eexists (map (pair LinkLayer)
               (concat (map (link_calls (nodes w)) l2) ++ [endFill])
               ++ concat (map node_calls (nodes w))).
    rewrite !map_app. cbn [map app]. rewrite <- !app_assoc. reflexivity. }
  destruct Ecalls as (pre & post & ->).
  exists (length pre). split.
  - by apply list_lookup_middle.
  - rewrite lookup_app_r by apply Nat.le_succ_diag_r.
    rewrite Nat.sub_succ_l, Nat.sub_diag by done. reflexivity.
Qed.

Lemma node_circle_call (w : World) (n : Node) (c : nat) :
  n ∈ nodes w -> circle n = Some c ->
  (Circle c, drawCircle (x n) (y n) (radius (linkCount n)))
    ∈ updatePositions_calls w.
Proof.
  intros Hn Hc. unfold updatePositions_calls. apply elem_of_app. right.
  induction (nodes w) as [|n' ns IH]; [by apply elem_of_nil in Hn|].
  cbn [map concat]. apply elem_of_app.
  apply elem_of_cons in Hn as [<- | Hn]; [left | right; by apply IH].
  unfold node_calls. rewrite Hc. cbn.
  do 3 apply list_elem_of_further. apply list_elem_of_here.
Qed.

(** C8, as amended.  On every render the link layer is cleared first and
    every link between two nodes is drawn as a segment; every call that
    draws a segment comes before every call on a circle, so every line
    precedes every circle.  The circles drawn before are not cleared
    first: each is cleared after the links are drawn, right before it is
    drawn again.  Afterwards the link layer holds the new segments only,
    and the circle of a node the new circle only. *)
Theorem render_clears_then_links_then_circles (w : World) :
  updatePositions_calls w !! 0 = Some (LinkLayer, clear)
  /\ (forall (i j : nat) (ti tj : Target) (ci cj : Cmd),
         updatePositions_calls w !! i = Some (ti, ci) ->
         updatePositions_calls w !! j = Some (tj, cj) ->
         is_line ci = true -> is_circle cj = true -> i < j)
  /\ (forall (j c : nat) (cj : Cmd),
         updatePositions_calls w !! j = Some (Circle c, cj) ->
         is_circle cj = true ->
         2 <= j
         /\ updatePositions_calls w !! (j - 2) = Some (Circle c, clear)
         /\ updatePositions_calls w !! (j - 1)
            = Some (Circle c, beginFill 0x66ccff 1))
  /\ geometry (graphics (updatePositions w))
     = [beginFill 0 0; lineStyle 2 0xffffff (6 # 10)]
         ++ concat (map (link_calls (nodes w)) (links w)) ++ [endFill]
  /\ (forall (k c : nat) (n : Node) (g : Graphics),
         nodes w !! k = Some n -> circle n = Some c ->
         (forall k' n', nodes w !! k' = Some n' -> circle n' = Some c -> k' = k) ->
         circles w !! c = Some g ->
         circles (updatePositions w) !! c
         = Some (mkGraphics (alpha g)
                   [beginFill 0x66ccff 1;
                    drawCircle (x n) (y n) (radius (linkCount n)); endFill]
                   (node g)))
  /\ (forall (i j c : nat) (ti : Target) (ci cj : Cmd),
         updatePositions_calls w !! i = Some (ti, ci) ->
         is_line ci = true ->
         updatePositions_calls w !! j = Some (Circle c, cj) ->
         i < j)
  /\ (forall (l : Link) (s t : Node),
         l ∈ links w ->
         nodes w !! source l = Some s -> nodes w !! target l = Some t ->
         exists j,
           updatePositions_calls w !! j = Some (LinkLayer, moveTo (x s) (y s))
           /\ updatePositions_calls w !! S j
              = Some (LinkLayer, lineTo (x t) (y t)))
  /\ (forall (n : Node) (c : nat),
         n ∈ nodes w -> circle n = Some c ->
         (Circle c, drawCircle (x n) (y n) (radius (linkCount n)))
           ∈ updatePositions_calls w).
Proof.
  pose proof (link_segment_calls w) as Hseg.
  pose proof (node_circle_call w) as Hcirc.
  revert Hseg Hcirc.
  unfold updatePositions, updatePositions_calls.
  intros Hseg Hcirc.
  set (L := [clear; beginFill 0 0; lineStyle 2 16777215 (6 # 10)]
              ++ concat (map (link_calls (nodes w)) (links w)) ++ [endFill]).
  set (B := concat (map node_calls (nodes w))).
  assert (HL : forall c, c ∈ L -> is_circle c = false).
  { intros c. subst L. rewrite !elem_of_app.
    intros [H|[H|H]].
    - repeat (apply elem_of_cons in H as [-> | H]; [reflexivity|]).
      by apply elem_of_nil in H.
    - apply link_calls_lines in H. by destruct c.
    - apply list_elem_of_singleton in H as ->. reflexivity. }
  assert (HB : forall j c cj, (map (pair LinkLayer) L ++ B) !! j = Some (Circle c, cj) ->
                              length (map (pair LinkLayer) L) <= j).
  { intros j c cj Hj. destruct (decide (j < length (map (pair LinkLayer) L))); [|lia].
    rewrite lookup_app_l in Hj by done.
    apply list_lookup_fmap_Some in Hj as (? & ? & _). discriminate. }
  split; [reflexivity|].
  split; [|split; [|split; [|split; [|split; [|split; [exact Hseg | exact Hcirc]]]]]].
  - intros i j ti tj ci cj Hi Hj Hli Hcj.
    assert (i < length (map (pair LinkLayer) L)).
    { destruct (decide (i < length (map (pair LinkLayer) L))); [done|].
      rewrite lookup_app_r in Hi by lia.
      apply list_elem_of_lookup_2, node_calls_no_line in Hi. cbn in Hi. congruence. }
    assert (length (map (pair LinkLayer) L) <= j); [|lia].
    destruct (decide (j < length (map (pair LinkLayer) L))); [|lia].
    rewrite lookup_app_l in Hj by done.
    apply list_lookup_fmap_Some in Hj as (c' & E & Hc').
    inversion E; subst. apply list_elem_of_lookup_2, HL in Hc'. congruence.
  - intros j c cj Hj Hcj.
    pose proof (HB _ _ _ Hj) as Hge.
    rewrite lookup_app_r in Hj by done.
    destruct (node_calls_clear_first _ _ _ _ Hj Hcj) as (H2 & Hcl & Hbf).
    split; [lia|].
    rewrite !lookup_app_r by lia.
    replace (j - 2 - length (map (pair LinkLayer) L))
      with (j - length (map (pair LinkLayer) L) - 2) by lia.
    replace (j - 1 - length (map (pair LinkLayer) L))
      with (j - length (map (pair LinkLayer) L) - 1) by lia.
    done.
  - rewrite foldl_app. subst B.
    rewrite foldl_exec_circles_graphics, foldl_exec_graphics.
    subst L. cbn [app]. rewrite draw_all_clear.
    rewrite draw_all_no_clear; [reflexivity|].
    intros H. apply elem_of_cons in H as [H|H]; [discriminate|].
    apply elem_of_cons in H as [H|H]; [discriminate|].
    apply elem_of_app in H as [H|H].
    + by apply link_calls_lines in H.
    + apply list_elem_of_singleton in H. discriminate.
  - intros k c n g Hk Hc Huniq Hg.
    rewrite foldl_app. subst B.
    rewrite <- (take_drop_middle _ _ _ Hk), map_app, concat_app.
    cbn [map concat]. rewrite !foldl_app.
    rewrite node_calls_other_circle.
    + apply node_calls_own_circle; [done|].
      rewrite node_calls_other_circle, link_layer_calls_circles; [done|].
      apply Forall_forall. intros n' Hn' Hc'.
      apply elem_of_take in Hn' as (k' & Hk' & Hlt).
      specialize (Huniq _ _ Hk' Hc'). lia.
    + apply Forall_forall. intros n' Hn' Hc'.
      apply list_elem_of_lookup_1 in Hn' as (j & Hj).
      rewrite lookup_drop in Hj.
      specialize (Huniq _ _ Hj Hc'). lia.
  - intros i j c ti ci cj Hi Hli Hj.
    pose proof (HB _ _ _ Hj) as Hge.
    destruct (decide (i < length (map (pair LinkLayer) L))); [lia|].
    rewrite lookup_app_r in Hi by lia.
    apply list_elem_of_lookup_2, node_calls_no_line in Hi. cbn in Hi. congruence.
Qed.

(** ** What the events leave alone *)

Lemma fmap_linkCount_alter (f : Node -> Node) (i : nat) (ns : list Node) :
  (forall n, linkCount (f n) = linkCount n) ->
  linkCount <$> alter f i ns = linkCount <$> ns.
Proof.
  intros Hf. apply list_eq. intros j.
  rewrite !list_lookup_fmap, list_lookup_alter.
  case_decide; subst; destruct (ns !! _); cbn; f_equal; auto.
Qed.

Lemma onDragStart_frame (c : nat) (gx gy : Q) (w : World) :
  simulation (onDragStart c gx gy w) = simulation w
  /\ links (onDragStart c gx gy w) = links w
  /\ linkCount <$> nodes (onDragStart c gx gy w) = linkCount <$> nodes w.
Proof.
  handler_cases; rewrite ?fmap_linkCount_alter by done; done.
Qed.

Lemma onDragMove_frame (gx gy : Q) (w : World) :
  (simulation (onDragMove gx gy w) = simulation w
   \/ simulation (onDragMove gx gy w) = reheat (simulation w))
  /\ dragTarget (onDragMove gx gy w) = dragTarget w
  /\ links (onDragMove gx gy w) = links w
  /\ linkCount <$> nodes (onDragMove gx gy w) = linkCount <$> nodes w.
Proof.
  handler_cases; rewrite ?fmap_linkCount_alter by done; auto.
Qed.

Lemma onDragEnd_frame (w : World) :
  (simulation (onDragEnd w) = simulation w
   \/ simulation (onDragEnd w) = setAlphaTarget 0 (simulation w))
  /\ links (onDragEnd w) = links w
  /\ linkCount <$> nodes (onDragEnd w) = linkCount <$> nodes w.
Proof.
  handler_cases; rewrite ?fmap_linkCount_alter by done; auto.
Qed.

Lemma iter_onDragMove_idle (k : nat) (gx gy : Q) (w : World) :
  dragTarget w = None -> Nat.iter k (onDragMove gx gy) w = w.
Proof.
  intros Hd. induction k as [|k IH]; [done|].
  rewrite Nat.iter_succ, IH. by apply onDragMove_idle.
Qed.

(** ** The engine *)

Section EngineFacts.

Variables alphaRate alphaMin : Q.
Variable net_force : list Node -> list Link -> nat -> Q * Q.

Lemma tick_frame (w : World) :
  links (tick alphaRate net_force w) = links w
  /\ linkCount <$> nodes (tick alphaRate net_force w) = linkCount <$> nodes w
  /\ simulation (tick alphaRate net_force w) = decay alphaRate (simulation w).
Proof.
  unfold tick. cbn. repeat split.
  apply list_eq. intros j. rewrite !list_lookup_fmap, list_lookup_imap.
  by destruct (nodes w !! j).
Qed.

Lemma step_frame (w : World) :
  links (step alphaRate alphaMin net_force w) = links w
  /\ linkCount <$> nodes (step alphaRate alphaMin net_force w)
     = linkCount <$> nodes w
  /\ sim_alpha (simulation (step alphaRate alphaMin net_force w))
     = sim_alpha (decay alphaRate (simulation w))
  /\ sim_alphaTarget (simulation (step alphaRate alphaMin net_force w))
     = sim_alphaTarget (simulation w).
Proof.
  unfold step.
  destruct (updatePositions_frame (tick alphaRate net_force w))
    as (N & L & _ & Sm & _).
  destruct (tick_frame w) as (L' & N' & Sm').
  destruct (Qlt_le_dec _ _);
    cbn [with_simulation nodes links simulation stop sim_alpha sim_alphaTarget];
    rewrite ?N, ?L, ?Sm, ?Sm'; done.
Qed.

(** A pinned node is put on its pin by a tick, and stays pinned. *)
Lemma step_pinned (w : World) (i : nat) (n : Node) (a b : Q) :
  nodes w !! i = Some n -> fx n = Some a -> fy n = Some b ->
  exists n',
    nodes (step alphaRate alphaMin net_force w) !! i = Some n'
    /\ x n' = a /\ y n' = b /\ fx n' = Some a /\ fy n' = Some b.
Proof.
  intros Hi Hfx Hfy. unfold step.
  destruct (updatePositions_frame (tick alphaRate net_force w))
    as (N & _).
  match goal with
  | |- context [nodes ?w'] =>
      assert (E : nodes w' = nodes (tick alphaRate net_force w))
        by (destruct (Qlt_le_dec _ _); cbn [with_simulation nodes]; done)
  end.
  rewrite E. unfold tick. cbn [with_simulation with_nodes nodes]. rewrite list_lookup_imap, Hi. cbn.
  eexists. split; [reflexivity|]. cbn. rewrite Hfx, Hfy. done.
Qed.

Lemma handle_frame (e : Event) (w : World) :
  links (handle alphaRate alphaMin net_force e w) = links w
  /\ linkCount <$> nodes (handle alphaRate alphaMin net_force e w)
     = linkCount <$> nodes w.
Proof.
  destruct e as [c gx gy|gx gy| | |]; cbn [handle].
  - destruct (circles w !! c); [|done].
    destruct (onDragStart_frame c gx gy w) as (_ & L & N). done.
  - induction (pointermove (stage w)) as [|k [L N]]; [done|].
    rewrite Nat.iter_succ.
    destruct (onDragMove_frame gx gy (Nat.iter k (onDragMove gx gy) w))
      as (_ & _ & L' & N').
    split; congruence.
  - induction (pointerup (stage w)) as [|k [L N]]; [done|].
    rewrite Nat.iter_succ.
    destruct (onDragEnd_frame (Nat.iter k onDragEnd w)) as (_ & L' & N').
    split; congruence.
  - induction (pointerupoutside (stage w)) as [|k [L N]]; [done|].
    rewrite Nat.iter_succ.
    destruct (onDragEnd_frame (Nat.iter k onDragEnd w)) as (_ & L' & N').
    split; congruence.
  - destruct (sim_running (simulation w)); [|done].
    destruct (step_frame w) as (L & N & _). done.
Qed.

Lemma run_frame (es : list Event) :
  forall w : World,
    links (run alphaRate alphaMin net_force es w) = links w
    /\ linkCount <$> nodes (run alphaRate alphaMin net_force es w)
       = linkCount <$> nodes w.
Proof.
  unfold run. induction es as [|e es IH]; intros w; cbn [foldl]; [done|].
  destruct (IH (handle alphaRate alphaMin net_force e w)) as (L & N).
  destruct (handle_frame e w) as (L' & N'). split; congruence.
Qed.

End EngineFacts.

Section Ticks.

Variables alphaRate alphaMin : Q.
Variable net_force : list Node -> list Link -> nat -> Q * Q.

(** C1.  A node whose pinned position (fx, fy) is non-null when a tick
    runs is exactly at (fx, fy) after that tick, and is still pinned
    there; so after each of any number of ticks, the ten of the scenario
    included, a node pinned beforehand is at its pin. *)
Theorem pinned_node_stays_on_pin
        (w : World) (i : nat) (n : Node) (a b : Q) (k : nat) :
  nodes w !! i = Some n -> fx n = Some a -> fy n = Some b ->
  1 <= k ->
  exists n',
    nodes (Nat.iter k (step alphaRate alphaMin net_force) w) !! i = Some n'
    /\ x n' = a /\ y n' = b /\ fx n' = Some a /\ fy n' = Some b.
Proof.
  intros Hi Hfx Hfy Hk.
  destruct k as [|k]; [lia|]. clear Hk.
  induction k as [|k (n1 & H1 & _ & _ & Hfx1 & Hfy1)].
  - exact (step_pinned alphaRate alphaMin net_force w i n a b Hi Hfx Hfy).
  - rewrite Nat.iter_succ.
    exact (step_pinned alphaRate alphaMin net_force _ i n1 a b H1 Hfx1 Hfy1).
Qed.

Lemma iter_onDragMove_simulation (k : nat) (gx gy : Q) (w : World) :
  simulation (Nat.iter k (onDragMove gx gy) w) = simulation w
  \/ simulation (Nat.iter k (onDragMove gx gy) w) = reheat (simulation w).
Proof.
  induction k as [|k IH]; [by left|].
  rewrite Nat.iter_succ.
  destruct (onDragMove_frame gx gy (Nat.iter k (onDragMove gx gy) w))
    as ([E|E] & _); rewrite E; destruct IH as [-> | ->]; auto.
Qed.

Lemma iter_onDragEnd_simulation (k : nat) (w : World) :
  simulation (Nat.iter k onDragEnd w) = simulation w
  \/ simulation (Nat.iter k onDragEnd w) = setAlphaTarget 0 (simulation w).
Proof.
  induction k as [|k IH]; [by left|].
  rewrite Nat.iter_succ.
  destruct (onDragEnd_frame (Nat.iter k onDragEnd w))
    as ([E|E] & _); rewrite E; destruct IH as [-> | ->]; auto.
Qed.

Hypothesis alphaRate_range : (0 <= alphaRate <= 1)%Q.

Lemma decay_alpha (s : Simulation) :
  alpha_ok s ->
  alpha_ok (decay alphaRate s)
  /\ (sim_alpha (decay alphaRate s) <= sim_alpha s)%Q.
Proof.
  intros [Ht [H0 H1]]. unfold alpha_ok, decay. cbn. rewrite Ht. cbn.
  destruct alphaRate_range as [R0 R1].
  assert (0 <= sim_alpha s * alphaRate)%Q by (apply Qmult_le_0_compat; done).
  assert (sim_alpha s * alphaRate <= sim_alpha s)%Q.
  { rewrite <- (Qmult_1_r (sim_alpha s)) at 2.
    rewrite (Qmult_comm (sim_alpha s) alphaRate), (Qmult_comm (sim_alpha s) 1).
    apply Qmult_le_compat_r; done. }
  repeat split; try done. by apply Qle_trans with (sim_alpha s).
Qed.

Lemma handle_alpha_ok (e : Event) (w : World) :
  alpha_ok (simulation w) ->
  alpha_ok (simulation (handle alphaRate alphaMin net_force e w)).
Proof.
  intros Hok. destruct e as [c gx gy|gx gy| | |]; cbn [handle].
  - destruct (circles w !! c); [|done].
    destruct (onDragStart_frame c gx gy w) as (-> & _). done.
  - destruct (iter_onDragMove_simulation (pointermove (stage w)) gx gy w)
      as [-> | ->]; [done|].
    destruct Hok as [Ht _]. split; cbn; [done|]. split; discriminate.
  - destruct (iter_onDragEnd_simulation (pointerup (stage w)) w)
      as [-> | ->]; [done|].
    destruct Hok as [_ Ha]. split; cbn; done.
  - destruct (iter_onDragEnd_simulation (pointerupoutside (stage w)) w)
      as [-> | ->]; [done|].
    destruct Hok as [_ Ha]. split; cbn; done.
  - destruct (sim_running (simulation w)); [|done].
    destruct (step_frame alphaRate alphaMin net_force w) as (_ & _ & A & T).
    destruct (decay_alpha _ Hok) as [[Ht Ha] _].
    split; [rewrite T; apply Hok | rewrite A; done].
Qed.

Lemma handle_alpha_le (e : Event) (w : World) :
  alpha_ok (simulation w) ->
  reheats e w = false ->
  (sim_alpha (simulation (handle alphaRate alphaMin net_force e w))
   <= sim_alpha (simulation w))%Q.
Proof.
  intros Hok Hre. destruct e as [c gx gy|gx gy| | |]; cbn [handle].
  - destruct (circles w !! c); [|apply Qle_refl].
    destruct (onDragStart_frame c gx gy w) as (-> & _). apply Qle_refl.
  - cbn [reheats] in Hre. apply andb_false_iff in Hre as [Hre|Hre].
    + apply bool_decide_eq_false in Hre.
      replace (pointermove (stage w)) with 0 by lia. apply Qle_refl.
    + apply bool_decide_eq_false in Hre.
      rewrite iter_onDragMove_idle; [apply Qle_refl|].
      destruct (dragTarget w); [|done]. exfalso. apply Hre. by eexists.
  - destruct (iter_onDragEnd_simulation (pointerup (stage w)) w)
      as [-> | ->]; apply Qle_refl.
  - destruct (iter_onDragEnd_simulation (pointerupoutside (stage w)) w)
      as [-> | ->]; apply Qle_refl.
  - destruct (sim_running (simulation w)); [|apply Qle_refl].
    destruct (step_frame alphaRate alphaMin net_force w) as (_ & _ & -> & _).
    by apply decay_alpha.
Qed.

Lemma run_alpha_ok (es : list Event) :
  forall w : World,
    alpha_ok (simulation w) ->
    alpha_ok (simulation (run alphaRate alphaMin net_force es w)).
Proof.
  unfold run. induction es as [|e es IH]; intros w Hok; cbn [foldl]; [done|].
  apply IH. by apply handle_alpha_ok.
Qed.

Lemma iter_step_alpha (k : nat) (w : World) :
  alpha_ok (simulation w) ->
  alpha_ok (simulation (Nat.iter k (step alphaRate alphaMin net_force) w))
  /\ (sim_alpha (simulation (Nat.iter k (step alphaRate alphaMin net_force) w))
      <= sim_alpha (simulation w))%Q.
Proof.
  intros Hok. induction k as [|k [IHok IHle]]; [split; [done|apply Qle_refl]|].
  rewrite Nat.iter_succ.
  set (w1 := Nat.iter k (step alphaRate alphaMin net_force) w) in *.
  destruct (step_frame alphaRate alphaMin net_force w1) as (_ & _ & A & T).
  destruct (decay_alpha _ IHok) as [[Ht Ha] Hle].
  split.
  - split; [rewrite T; apply IHok | rewrite A; done].
  - rewrite A. by apply Qle_trans with (sim_alpha (simulation w1)).
Qed.

(** C6.  In every state the program reaches, alpha is in [0, 1]; an event
    that is not a reheat (a pointer-move that reaches the move handler
    during a drag) never raises alpha; and over any number of ticks in a
    row alpha does not increase.  The program sets no positive
    alphaTarget. *)
Theorem alpha_bounded_and_non_increasing
        (rnd_pos rnd_link : nat -> Q * Q) (width height : Q)
        (es : list Event) :
  let w := run alphaRate alphaMin net_force es
               (initial_world rnd_pos rnd_link width height) in
  (0 <= sim_alpha (simulation w) <= 1)%Q
  /\ (forall e : Event,
         reheats e w = false ->
         (sim_alpha (simulation (handle alphaRate alphaMin net_force e w))
          <= sim_alpha (simulation w))%Q)
  /\ (forall k : nat,
         (sim_alpha
            (simulation (Nat.iter k (step alphaRate alphaMin net_force) w))
          <= sim_alpha (simulation w))%Q).
Proof.
  cbn zeta.
  assert (Hok : alpha_ok (simulation
                  (run alphaRate alphaMin net_force es
                       (initial_world rnd_pos rnd_link width height)))).
  { apply run_alpha_ok. rewrite initial_world_scene. cbn [scene simulation].
    split; cbn; [done|]. split; discriminate. }
  split; [apply Hok|]. split.
  - intros e. by apply handle_alpha_le.
  - intros k. by apply iter_step_alpha.
Qed.

End Ticks.

(** ** The graph in every reachable state *)

Lemma gen_links_length (rnd_link : nat -> Q * Q) (ks : list nat) :
  forall st : list Node * list Link,
    length (fst (foldl (Build.gen_link rnd_link) st ks)) = length (fst st).
Proof.
  induction ks as [|k ks IH]; intros st; cbn [foldl]; [done|].
  rewrite IH. unfold Build.gen_link. cbn [fst].
  case_bool_decide; rewrite ?length_alter; done.
Qed.

Lemma gen_links_fst_length
      (rnd_link : nat -> Q * Q) (ns : list Node) (ks : list nat) :
  length (fst (Build.gen_links rnd_link ns ks)) = length ns.
Proof.
  unfold Build.gen_links. cbn [fst]. apply gen_links_length.
Qed.

Lemma sample_links_length (rnd_link : nat -> Q * Q) (ns : list Node) :
  length (fst (Build.sample_links rnd_link ns)) = length ns.
Proof. apply gen_links_fst_length. Qed.

Lemma sample_links_linkCount
      (rnd_link : nat -> Q * Q) (ns : list Node) (i : nat) (n : Node) :
  ns !! i = Some n ->
  linkCount n = 0 ->
  exists n',
    fst (Build.sample_links rnd_link ns) !! i = Some n'
    /\ linkCount n' = Build.degree (snd (Build.sample_links rnd_link ns)) i.
Proof. apply gen_links_linkCount. Qed.

Lemma sample_links_not_self (rnd_link : nat -> Q * Q) (ns : list Node) :
  Forall Build.not_self (snd (Build.sample_links rnd_link ns)).
Proof. apply gen_links_not_self. Qed.

Lemma initial_world_linkCount
      (rnd_pos rnd_link : nat -> Q * Q) (width height : Q) (i : nat) (n : Node) :
  nodes (initial_world rnd_pos rnd_link width height) !! i = Some n ->
  linkCount n
  = Build.degree (links (initial_world rnd_pos rnd_link width height)) i.
Proof.
  rewrite initial_world_scene.
  pose proof (sample_links_length rnd_link
                (Build.sample_nodes rnd_pos width height)) as Hlen.
  pose proof (sample_links_linkCount rnd_link
                (Build.sample_nodes rnd_pos width height) i) as Hcount.
  revert Hlen Hcount.
  generalize (Build.sample_links rnd_link
                (Build.sample_nodes rnd_pos width height)).
  intros built Hlen Hcount H. cbn [scene nodes links] in *.
  apply list_lookup_imap_Some in H as (n1 & H1 & ->).
  assert (Hlt : i < length (Build.sample_nodes rnd_pos width height)).
  { apply lookup_lt_Some in H1. by rewrite Hlen in H1. }
  apply lookup_lt_is_Some in Hlt as [n0 H0].
  destruct (Hcount n0 H0 (sample_nodes_linkCount _ _ _ _ _ H0))
    as (n' & Hn' & E).
  rewrite H1 in Hn'. inversion Hn'; subst. exact E.
Qed.

Lemma node_calls_radius (n : Node) (c : nat) (px py : Q) (r : nat) :
  (Circle c, drawCircle px py r) ∈ node_calls n -> r = radius (linkCount n).
Proof.
  unfold node_calls. destruct (circle n); cbn; intros H.
  - repeat (apply elem_of_cons in H as [H|H]; [by inversion H|]).
    by apply elem_of_nil in H.
  - by apply elem_of_nil in H.
Qed.

Lemma radius_mono (d1 d2 : nat) : d1 <= d2 -> radius d1 <= radius d2.
Proof. unfold radius. lia. Qed.

Section Reachable.

Variables alphaRate alphaMin : Q.
Variable net_force : list Node -> list Link -> nat -> Q * Q.
Variables rnd_pos rnd_link : nat -> Q * Q.
Variables width height : Q.

(** C7.  No link of the graph that is built, and that the simulation
    works on from then on, has the same node at both ends: the self-links
    the generator makes are filtered out at construction. *)
Theorem links_join_distinct_nodes (es : list Event) :
  Forall (fun l => source l <> target l)
         (links (run alphaRate alphaMin net_force es
                     (initial_world rnd_pos rnd_link width height))).
Proof.
  destruct (run_frame alphaRate alphaMin net_force es
              (initial_world rnd_pos rnd_link width height)) as (-> & _).
  rewrite initial_world_scene. cbn [scene links].
  apply sample_links_not_self.
Qed.

(** C9.  The radius a node is drawn with is non-decreasing in its degree:
    of two nodes drawn in the same state, the one with at least the
    degree of the other gets at least its radius. *)
Theorem radius_monotone_in_degree
        (es : list Event) (i j : nat) (ni nj : Node)
        (ci cj : nat) (px py qx qy : Q) (ri rj : nat) :
  let w := run alphaRate alphaMin net_force es
               (initial_world rnd_pos rnd_link width height) in
  nodes w !! i = Some ni -> nodes w !! j = Some nj ->
  (Circle ci, drawCircle px py ri) ∈ node_calls ni ->
  (Circle cj, drawCircle qx qy rj) ∈ node_calls nj ->
  Build.degree (links w) i <= Build.degree (links w) j ->
  ri <= rj.
Proof.
  cbn zeta. intros Hi Hj Hri Hrj Hdeg.
  apply node_calls_radius in Hri as ->. apply node_calls_radius in Hrj as ->.
  apply radius_mono.
  destruct (run_frame alphaRate alphaMin net_force es
              (initial_world rnd_pos rnd_link width height)) as (L & N).
  rewrite L in Hdeg.
  assert (Hcount : forall k nk,
             nodes (run alphaRate alphaMin net_force es
                        (initial_world rnd_pos rnd_link width height)) !! k
             = Some nk ->
             linkCount nk
             = Build.degree
                 (links (initial_world rnd_pos rnd_link width height)) k).
  { intros k nk Hk.
    assert (E : (linkCount <$> nodes (initial_world rnd_pos rnd_link width height))
                  !! k = Some (linkCount nk))
      by (rewrite <- N, list_lookup_fmap, Hk; done).
    apply list_lookup_fmap_Some in E as (n0 & E0 & H0).
    rewrite E0. by apply initial_world_linkCount. }
  rewrite (Hcount _ _ Hi), (Hcount _ _ Hj). exact Hdeg.
Qed.

End Reachable.

(** ** The wiring of the scene is kept *)

Lemma fmap_alter_same {A B : Type} (h : A -> B) (f : A -> A) (i : nat) (l : list A) :
  (forall a, h (f a) = h a) -> h <$> alter f i l = h <$> l.
Proof.
  intros Hf. apply list_eq. intros j.
  rewrite !list_lookup_fmap, list_lookup_alter.
  case_decide; subst; destruct (l !! _); cbn; f_equal; auto.
Qed.

Lemma wired_circle (w : World) (c : nat) :
  wired w -> c < length (nodes w) ->
  exists g, circles w !! c = Some g /\ node g = Some c.
Proof.
  intros (_ & _ & Hc & _ & _) Hlt.
  assert (E : (node <$> circles w) !! c = Some (Some c)).
  { rewrite Hc, list_lookup_fmap, lookup_seq_lt by done. done. }
  apply list_lookup_fmap_Some in E as (g & E & Hg). by exists g.
Qed.

Lemma wired_circle_inv (w : World) (c : nat) (g : Graphics) :
  wired w -> circles w !! c = Some g ->
  c < length (nodes w) /\ node g = Some c.
Proof.
  intros (_ & _ & Hc & _ & _) Hg.
  assert (E : (node <$> circles w) !! c = Some (node g))
    by (rewrite list_lookup_fmap, Hg; done).
  rewrite Hc in E. apply list_lookup_fmap_Some in E as (k & E & Hk).
  apply lookup_seq in Hk as [-> Hk]. split; [lia | done].
Qed.

Lemma wired_node_circle (w : World) (k : nat) (n : Node) :
  wired w -> nodes w !! k = Some n -> circle n = Some k.
Proof.
  intros (_ & _ & _ & Hn & _) Hk.
  assert (E : (circle <$> nodes w) !! k = Some (circle n))
    by (rewrite list_lookup_fmap, Hk; done).
  rewrite Hn in E. apply list_lookup_fmap_Some in E as (j & E & Hj).
  apply lookup_seq in Hj as [-> _]. done.
Qed.

Lemma scene_wired (ns : list Node) (ls : list Link) : wired (scene ns ls).
Proof.
  unfold wired, scene. cbn. rewrite length_imap.
  assert (Hseq : forall (A : Type) (h : nat -> Node -> A) (p : A -> option nat),
             (forall j n, p (h j n) = Some j) ->
             p <$> imap h ns = Some <$> seq 0 (length ns)).
  { intros A h p Hp. apply list_eq. intros j.
    rewrite !list_lookup_fmap, list_lookup_imap.
    destruct (ns !! j) as [n|] eqn:E; cbn.
    - rewrite lookup_seq_lt by (by apply lookup_lt_Some in E). cbn.
      by rewrite Hp.
    - rewrite lookup_seq_ge by (by apply lookup_ge_None in E). done. }
  repeat split; by apply Hseq.
Qed.

Lemma onDragStart_wired (c : nat) (gx gy : Q) (w : World) (g : Graphics) :
  circles w !! c = Some g -> wired w -> wired (onDragStart c gx gy w).
Proof.
  intros Hg Hw. destruct (wired_circle_inv w c g Hw Hg) as [Hlt Hn].
  destruct (onDragStart_effect c gx gy w c g Hg Hn)
    as (N & _ & _ & C & D & _ & T).
  destruct Hw as (U & O & Hc & Hn' & _).
  cbn zeta in *. unfold wired. rewrite N, C, D, T. cbn.
  rewrite length_alter, !fmap_alter_same by done.
  repeat split; try done; lia.
Qed.

Lemma onDragMove_wired (gx gy : Q) (w : World) :
  wired w -> wired (onDragMove gx gy w).
Proof.
  intros Hw. destruct (dragTarget w) as [c|] eqn:Hd;
    [|by rewrite onDragMove_idle].
  pose proof Hw as (U & O & Hc & Hn' & Hdt).
  rewrite Hd in Hdt. destruct Hdt as [Hlt Hm].
  destruct (wired_circle w c Hw Hlt) as (g & Hg & Hn).
  destruct (onDragMove_dragging gx gy w c c g Hd Hg Hn)
    as (N & _ & _ & C & D & _ & T).
  cbn zeta in *. unfold wired. rewrite N, C, D, T, Hd.
  rewrite length_alter, fmap_alter_same by done. done.
Qed.

Lemma onDragEnd_wired (w : World) : wired w -> wired (onDragEnd w).
Proof.
  intros Hw. destruct (dragTarget w) as [c|] eqn:Hd;
    [|by rewrite onDragEnd_idle].
  pose proof Hw as (U & O & Hc & Hn' & Hdt).
  rewrite Hd in Hdt. destruct Hdt as [Hlt Hm].
  destruct (wired_circle w c Hw Hlt) as (g & Hg & Hn).
  destruct (onDragEnd_dragging w c c g Hd Hg Hn)
    as (N & _ & _ & C & D & _ & T).
  cbn zeta in *. unfold wired. rewrite N, C, D, T. cbn.
  rewrite length_alter, !fmap_alter_same by done. done.
Qed.

Lemma exec_wired (w : World) (call : Target * Cmd) : wired w -> wired (exec w call).
Proof.
  intros (U & O & Hc & Hn' & Hdt). unfold wired, exec.
  destruct (fst call); cbn; [done|].
  rewrite fmap_alter_same; [done|]. intros a. by destruct (snd call).
Qed.

Lemma updatePositions_wired (w : World) : wired w -> wired (updatePositions w).
Proof.
  unfold updatePositions. generalize (updatePositions_calls w).
  intros calls. revert w.
  induction calls as [|call calls IH]; intros w Hw; cbn [foldl]; [done|].
  apply IH. by apply exec_wired.
Qed.

Section Wiring.

Variables alphaRate alphaMin : Q.
Variable net_force : list Node -> list Link -> nat -> Q * Q.

Lemma step_wired (w : World) :
  wired w -> wired (step alphaRate alphaMin net_force w).
Proof.
  intros Hw. unfold step.
  assert (Ht : wired (tick alphaRate net_force w)).
  { destruct Hw as (U & O & Hc & Hn' & Hdt). unfold wired, tick. cbn.
    rewrite length_imap. repeat split; try done.
    rewrite <- Hn'. apply list_eq. intros j.
    rewrite !list_lookup_fmap, list_lookup_imap. by destruct (nodes w !! j). }
  apply updatePositions_wired in Ht.
  destruct (Qlt_le_dec _ _); [|done].
  destruct Ht as (U & O & Hc & Hn' & Hdt). unfold wired.
  cbn [with_simulation nodes circles dragTarget stage]. done.
Qed.

Lemma handle_wired (e : Event) (w : World) :
  wired w -> wired (handle alphaRate alphaMin net_force e w).
Proof.
  intros Hw. destruct e as [c gx gy|gx gy| | |]; cbn [handle].
  - destruct (circles w !! c) as [g|] eqn:Hg; [|done].
    by apply (onDragStart_wired c gx gy w g).
  - induction (pointermove (stage w)) as [|k IH]; [done|].
    rewrite Nat.iter_succ. by apply onDragMove_wired.
  - induction (pointerup (stage w)) as [|k IH]; [done|].
    rewrite Nat.iter_succ. by apply onDragEnd_wired.
  - induction (pointerupoutside (stage w)) as [|k IH]; [done|].
    rewrite Nat.iter_succ. by apply onDragEnd_wired.
  - destruct (sim_running (simulation w)); [|done]. by apply step_wired.
Qed.

(** Every state the program reaches is wired. *)
Lemma run_wired (es : list Event) (w : World) :
  wired w -> wired (run alphaRate alphaMin net_force es w).
Proof.
  unfold run. revert w.
  induction es as [|e es IH]; intros w Hw; cbn [foldl]; [done|].
  apply IH. by apply handle_wired.
Qed.

Lemma reachable_wired
      (rnd_pos rnd_link : nat -> Q * Q) (width height : Q) (es : list Event) :
  wired (run alphaRate alphaMin net_force es
             (initial_world rnd_pos rnd_link width height)).
Proof. apply run_wired. rewrite initial_world_scene. apply scene_wired. Qed.

End Wiring.

(** ** The properties at work on the concrete instance *)

Lemma pinned_node_stays_on_pin_witness :
  fx <$> nodes Demo.dragging !! 0 = Some (Some 10%Q)
  /\ exists n',
      nodes (Nat.iter 10 Demo.step Demo.dragging) !! 0 = Some n'
      /\ x n' = 10%Q /\ y n' = 10%Q /\ fx n' = Some 10%Q /\ fy n' = Some 10%Q.
Proof.
  split; [vm_compute; reflexivity|].
  eapply (pinned_node_stays_on_pin Demo.alphaRate Demo.alphaMin Demo.net_force
            Demo.dragging 0 _ 10 10 10).
  - vm_compute. reflexivity.
  - reflexivity.
  - reflexivity.
  - lia.
Defined.

(** C2 fails as stated: with circle 0 being dragged, a pointer-down on
    circle 1 is not ignored; it takes the drag over and pins node 1. *)
Lemma second_pointer_down_is_not_ignored :
  dragTarget Demo.dragging = Some 0
  /\ dragTarget (Demo.handle (PointerDown 1 20 20) Demo.dragging) = Some 1
  /\ fx <$> nodes Demo.dragging !! 1 = Some None
  /\ fx <$> nodes (Demo.handle (PointerDown 1 20 20) Demo.dragging) !! 1
     = Some (Some 20%Q)
  /\ Demo.handle (PointerDown 1 20 20) Demo.dragging <> Demo.dragging.
Proof.
  repeat match goal with |- _ /\ _ => split end;
    try (vm_compute; reflexivity).
  intros E. apply (f_equal dragTarget) in E. vm_compute in E. discriminate E.
Qed.

Lemma pointer_down_while_dragging_retargets_witness :
  dragTarget Demo.dragging = Some 0
  /\ (fun n => (fx n, fy n))
       <$> nodes (Demo.handle (PointerDown 1 20 20) Demo.dragging) !! 1
     = Some (Some 20%Q, Some 20%Q)
  /\ exists g,
      circles Demo.dragging !! 1 = Some g /\ node g = Some 1
      /\ dragTarget (Demo.handle (PointerDown 1 20 20) Demo.dragging) = Some 1
      /\ (forall n, nodes Demo.dragging !! 1 = Some n ->
             nodes (Demo.handle (PointerDown 1 20 20) Demo.dragging) !! 1
             = Some (set_fy (Some 20%Q) (set_fx (Some 20%Q) n)))
      /\ (forall n, nodes Demo.dragging !! 1 = Some n ->
             exists n', nodes (Demo.handle (PointerDown 1 20 20) Demo.dragging) !! 1 = Some n'
                        /\ fx n' = Some 20%Q /\ fy n' = Some 20%Q
                        /\ unpinned_part n' = unpinned_part n)
      /\ (forall j, j <> 1 ->
             nodes (Demo.handle (PointerDown 1 20 20) Demo.dragging) !! j
             = nodes Demo.dragging !! j).
Proof.
  split; [vm_compute; reflexivity|].
  split; [vm_compute; reflexivity|].
  eexists. split; [vm_compute; reflexivity|]. split; [reflexivity|].
  eapply (pointer_down_while_dragging_retargets
           Demo.alphaRate Demo.alphaMin Demo.net_force
           Demo.dragging 0 1 1 _ 20 20).
  - vm_compute. reflexivity.
  - vm_compute. reflexivity.
  - reflexivity.
Defined.

(** C3 fails as stated: with a node dragged and alpha down to 1/2, a
    pointer-move puts alpha back to 1. *)
Lemma pointer_move_reheats_every_time :
  dragTarget Demo.dragging_cooled = Some 0
  /\ sim_alpha (simulation Demo.dragging_cooled) = (1 # 2)%Q
  /\ sim_alpha (simulation (Demo.handle (PointerMove 50 50) Demo.dragging_cooled))
     = 1%Q
  /\ sim_alpha
       (simulation
          (Demo.run [PointerMove 50 50; Tick; PointerMove 60 60]
                    Demo.dragging_cooled))
     = 1%Q.
Proof. evaluate. Qed.

Lemma pointer_move_updates_pin_and_reheats_witness :
  dragTarget Demo.dragging_cooled = Some 0
  /\ 0 < pointermove (stage Demo.dragging_cooled)
  /\ sim_alpha (simulation Demo.dragging_cooled) = (1 # 2)%Q
  /\ (fun n => (fx n, fy n))
       <$> nodes (Demo.handle (PointerMove 50 50) Demo.dragging_cooled) !! 0
     = Some (Some 50%Q, Some 50%Q)
  /\ exists g,
      circles Demo.dragging_cooled !! 0 = Some g /\ node g = Some 0
      /\ dragTarget (Demo.handle (PointerMove 50 50) Demo.dragging_cooled)
         = Some 0
      /\ (forall n, nodes Demo.dragging_cooled !! 0 = Some n ->
             nodes (Demo.handle (PointerMove 50 50) Demo.dragging_cooled) !! 0
             = Some (set_fy (Some 50%Q) (set_fx (Some 50%Q) n)))
      /\ (forall n, nodes Demo.dragging_cooled !! 0 = Some n ->
             exists n', nodes (Demo.handle (PointerMove 50 50) Demo.dragging_cooled) !! 0 = Some n'
                        /\ fx n' = Some 50%Q /\ fy n' = Some 50%Q
                        /\ unpinned_part n' = unpinned_part n)
      /\ (forall j, j <> 0 ->
             nodes (Demo.handle (PointerMove 50 50) Demo.dragging_cooled) !! j
             = nodes Demo.dragging_cooled !! j)
      /\ sim_alpha
           (simulation (Demo.handle (PointerMove 50 50) Demo.dragging_cooled))
         = 1%Q
      /\ sim_running
           (simulation (Demo.handle (PointerMove 50 50) Demo.dragging_cooled))
         = true.
Proof.
  split; [vm_compute; reflexivity|].
  split; [vm_compute; lia|].
  split; [vm_compute; reflexivity|].
  split; [vm_compute; reflexivity|].
  eexists. split; [vm_compute; reflexivity|]. split; [reflexivity|].
  eapply (pointer_move_updates_pin_and_reheats
           Demo.alphaRate Demo.alphaMin Demo.net_force
           Demo.dragging_cooled 0 0 _ 50 50).
  - vm_compute. reflexivity.
  - vm_compute. reflexivity.
  - reflexivity.
  - vm_compute. lia.
Defined.

(** C4 fails as stated: on a settled simulation a pointer-down leaves
    alpha, alphaTarget and the stopped tick loop as they are, and the next
    tick does not happen. *)
Lemma pointer_down_does_not_reheat :
  dragTarget Demo.settled = None
  /\ simulation Demo.settled = mkSimulation (1 # 1024) 0 false
  /\ simulation (Demo.handle (PointerDown 0 10 10) Demo.settled)
     = mkSimulation (1 # 1024) 0 false
  /\ Demo.handle Tick (Demo.handle (PointerDown 0 10 10) Demo.settled)
     = Demo.handle (PointerDown 0 10 10) Demo.settled.
Proof. evaluate. Qed.

Lemma pointer_down_pins_without_reheat_witness :
  dragTarget Demo.cooled = None
  /\ (fun n => (fx n, fy n))
       <$> nodes (Demo.handle (PointerDown 0 10 10) Demo.cooled) !! 0
     = Some (Some 10%Q, Some 10%Q)
  /\ alpha <$> circles (Demo.handle (PointerDown 0 10 10) Demo.cooled) !! 0
     = Some (1 # 2)%Q
  /\ exists g,
      circles Demo.cooled !! 0 = Some g /\ node g = Some 0
      /\ dragTarget (Demo.handle (PointerDown 0 10 10) Demo.cooled) = Some 0
      /\ (forall n, nodes Demo.cooled !! 0 = Some n ->
             nodes (Demo.handle (PointerDown 0 10 10) Demo.cooled) !! 0
             = Some (set_fy (Some 10%Q) (set_fx (Some 10%Q) n)))
      /\ (forall n, nodes Demo.cooled !! 0 = Some n ->
             exists n', nodes (Demo.handle (PointerDown 0 10 10) Demo.cooled) !! 0 = Some n'
                        /\ fx n' = Some 10%Q /\ fy n' = Some 10%Q
                        /\ unpinned_part n' = unpinned_part n)
      /\ circles (Demo.handle (PointerDown 0 10 10) Demo.cooled) !! 0
         = Some (set_alpha (1 # 2) g)
      /\ (exists g',
            circles (Demo.handle (PointerDown 0 10 10) Demo.cooled) !! 0
            = Some g'
            /\ alpha g' = (1 # 2)%Q
            /\ geometry g' = geometry g /\ node g' = node g)
      /\ pointermove (stage (Demo.handle (PointerDown 0 10 10) Demo.cooled))
         = S (pointermove (stage Demo.cooled))
      /\ simulation (Demo.handle (PointerDown 0 10 10) Demo.cooled)
         = simulation Demo.cooled.
Proof.
  split; [vm_compute; reflexivity|].
  split; [vm_compute; reflexivity|].
  split; [vm_compute; reflexivity|].
  eexists. split; [vm_compute; reflexivity|]. split; [reflexivity|].
  eapply (pointer_down_pins_without_reheat
           Demo.alphaRate Demo.alphaMin Demo.net_force
           Demo.cooled 0 0 _ 10 10).
  - vm_compute. reflexivity.
  - vm_compute. reflexivity.
  - reflexivity.
Defined.

Lemma pointer_up_ends_drag_witness :
  dragTarget Demo.dragging_cooled = Some 0
  /\ (fun n => (fx n, fy n)) <$> nodes Demo.dragging_cooled !! 0
     = Some (Some 10%Q, Some 10%Q)
  /\ alpha <$> circles Demo.dragging_cooled !! 0 = Some (1 # 2)%Q
  /\ (fun n => (fx n, fy n))
       <$> nodes (Demo.handle PointerUp Demo.dragging_cooled) !! 0
     = Some (None, None)
  /\ alpha <$> circles (Demo.handle PointerUp Demo.dragging_cooled) !! 0
     = Some 1%Q
  /\ exists g n,
      circles Demo.dragging_cooled !! 0 = Some g /\ node g = Some 0
      /\ nodes Demo.dragging_cooled !! 0 = Some n
      /\ dragTarget (Demo.handle PointerUp Demo.dragging_cooled) = None
      /\ (exists n',
            nodes (Demo.handle PointerUp Demo.dragging_cooled) !! 0 = Some n'
            /\ fx n' = None /\ fy n' = None
            /\ unpinned_part n' = unpinned_part n)
      /\ (exists g',
            circles (Demo.handle PointerUp Demo.dragging_cooled) !! 0 = Some g'
            /\ alpha g' = 1%Q
            /\ geometry g' = geometry g /\ node g' = node g)
      /\ sim_alphaTarget
           (simulation (Demo.handle PointerUp Demo.dragging_cooled))
         = 0%Q
      /\ sim_alpha (simulation (Demo.handle PointerUp Demo.dragging_cooled))
         = sim_alpha (simulation Demo.dragging_cooled)
      /\ pointermove (stage (Demo.handle PointerUp Demo.dragging_cooled)) = 0.
Proof.
  do 5 (split; [vm_compute; reflexivity|]).
  eexists. eexists. split; [vm_compute; reflexivity|]. split; [reflexivity|].
  split; [vm_compute; reflexivity|].
  eapply (pointer_up_ends_drag
           Demo.alphaRate Demo.alphaMin Demo.net_force
           PointerUp Demo.dragging_cooled 0 0).
  - left. reflexivity.
  - vm_compute. reflexivity.
  - vm_compute. reflexivity.
  - vm_compute. reflexivity.
  - vm_compute. reflexivity.
  - reflexivity.
  - vm_compute. reflexivity.
Defined.

(** C8 fails as stated: the primitives drawn before are not all cleared
    first.  In the render of the sample graph a segment is drawn by call
    4 and the first circle is cleared only by call 52; when all the
    segments are drawn (48 calls for 24 links) the first circle still
    holds what was drawn on it before. *)
Lemma old_circles_are_cleared_after_the_links :
  is_line <$> (snd <$> updatePositions_calls Demo.world !! 4) = Some true
  /\ updatePositions_calls Demo.world !! 52 = Some (Circle 0, clear)
  /\ length (filter (fun c : Cmd => is_line c)
                    (geometry
                       (graphics
                          (foldl exec Demo.world
                                 (take 52 (updatePositions_calls Demo.world))))))
     = 48
  /\ geometry
       <$> circles (foldl exec Demo.world
                          (take 52 (updatePositions_calls Demo.world))) !! 0
     = geometry <$> circles Demo.world !! 0
  /\ length <$> (geometry <$> circles Demo.world !! 0) = Some 3
  /\ ~ (forall (i j : nat) (t ti : Target) (ci : Cmd),
           updatePositions_calls Demo.world !! i = Some (t, clear) ->
           updatePositions_calls Demo.world !! j = Some (ti, ci) ->
           is_line ci = true -> i < j).
Proof.
  do 5 (split; [vm_compute; reflexivity|]).
  intros H. assert (52 < 4); [|lia].
  eapply (H 52 4).
  - vm_compute. reflexivity.
  - vm_compute. reflexivity.
  - reflexivity.
Qed.

(** The drag scenario of the specification on the first node: pressed at
    (0, 0), moved to (50, 50), released.  The node is pinned at the pointer
    while the drag lasts and free afterwards, and alphaTarget is 0 after
    the release. *)
Example drag_scenario :
  let down := Demo.run [PointerDown 0 0 0] Demo.world in
  let moved := Demo.run [PointerDown 0 0 0; PointerMove 50 50] Demo.world in
  let up := Demo.run [PointerDown 0 0 0; PointerMove 50 50; PointerUp]
                     Demo.world in
  (fun n => (fx n, fy n)) <$> nodes down !! 0 = Some (Some 0%Q, Some 0%Q)
  /\ (fun n => (fx n, fy n)) <$> nodes moved !! 0 = Some (Some 50%Q, Some 50%Q)
  /\ (fun n => (fx n, fy n)) <$> nodes up !! 0 = Some (None, None)
  /\ dragTarget moved = Some 0
  /\ dragTarget up = None
  /\ sim_alphaTarget (simulation up) = 0%Q.
Proof. cbv zeta. evaluate. Qed.

Lemma pointer_up_idle_noop_witness :
  dragTarget Demo.cooled = None
  /\ Demo.handle PointerUpOutside Demo.cooled = Demo.cooled.
Proof.
  split; [vm_compute; reflexivity|].
  apply (pointer_up_idle_noop Demo.alphaRate Demo.alphaMin Demo.net_force
           PointerUpOutside Demo.cooled).
  - right. reflexivity.
  - vm_compute. reflexivity.
Defined.

Lemma alpha_bounded_and_non_increasing_witness :
  (0 <= Demo.alphaRate <= 1)%Q
  /\ let w := run Demo.alphaRate Demo.alphaMin Demo.net_force
                  [PointerDown 0 10 10; Tick; PointerMove 50 50; Tick;
                   PointerUp; Tick]
                  (initial_world Demo.rnd_pos Demo.rnd_link 800 600) in
     (0 <= sim_alpha (simulation w) <= 1)%Q
     /\ (forall e : Event,
            reheats e w = false ->
            (sim_alpha
               (simulation
                  (handle Demo.alphaRate Demo.alphaMin Demo.net_force e w))
             <= sim_alpha (simulation w))%Q)
     /\ (forall k : nat,
            (sim_alpha
               (simulation
                  (Nat.iter k (step Demo.alphaRate Demo.alphaMin Demo.net_force)
                            w))
             <= sim_alpha (simulation w))%Q).
Proof.
  split; [split; discriminate|].
  apply (alpha_bounded_and_non_increasing
           Demo.alphaRate Demo.alphaMin Demo.net_force).
  split; discriminate.
Defined.

Lemma radius_monotone_in_degree_witness :
  Build.degree (links Demo.world) 0 <= Build.degree (links Demo.world) 2
  /\ exists n0 n2,
      nodes Demo.world !! 0 = Some n0 /\ nodes Demo.world !! 2 = Some n2
      /\ (Circle 0, drawCircle (x n0) (y n0) 6) ∈ node_calls n0
      /\ (Circle 2, drawCircle (x n2) (y n2) 12) ∈ node_calls n2
      /\ 6 <= 12.
Proof.
  split; [vm_compute; lia|].
  eexists. eexists.
  split; [vm_compute; reflexivity|]. split; [vm_compute; reflexivity|].
  assert (H0 : (Circle 0, drawCircle (0 # 20) (0 # 20) 6)
               ∈ node_calls (mkNode 0 (0 # 20) (0 # 20) 1 0 0 None None (Some 0)))
    by (apply list_elem_of_lookup_2 with 3; reflexivity).
  assert (H2 : (Circle 2, drawCircle (1600 # 20) (8400 # 20) 12)
               ∈ node_calls (mkNode 2 (1600 # 20) (8400 # 20) 4 0 0 None None
                                    (Some 2)))
    by (apply list_elem_of_lookup_2 with 3; reflexivity).
  split; [exact H0|]. split; [exact H2|].
  eapply (radius_monotone_in_degree
            Demo.alphaRate Demo.alphaMin Demo.net_force
            Demo.rnd_pos Demo.rnd_link 800 600 [] 0 2).
  - vm_compute. reflexivity.
  - vm_compute. reflexivity.
  - exact H0.
  - exact H2.
  - vm_compute. lia.
Defined.

(** * Further properties of the code *)

(** ** The sample graph *)

Lemma in_unit_scaled (r d : Q) :
  in_unit r -> (0 < d)%Q -> (0 <= r * d < d)%Q.
Proof.
  intros [H0 H1] Hd. split.
  - apply Qmult_le_0_compat; [done | by apply Qlt_le_weak].
  - rewrite <- (Qmult_1_l d) at 2. by apply Qmult_lt_compat_r.
Qed.

(** X1.  The generator makes twenty nodes; node [i] has id [i], no link counted
    and no pin, and lies inside the canvas. *)
Theorem sample_nodes_layout
        (rnd_pos : nat -> Q * Q) (width height : Q) (i : nat) (n : Node) :
  Build.sample_nodes rnd_pos width height !! i = Some n ->
  in_unit (fst (rnd_pos i)) -> in_unit (snd (rnd_pos i)) ->
  (0 < width)%Q -> (0 < height)%Q ->
  length (Build.sample_nodes rnd_pos width height) = 20
  /\ i < 20 /\ id n = i /\ linkCount n = 0 /\ fx n = None /\ fy n = None
  /\ (0 <= x n < width)%Q /\ (0 <= y n < height)%Q.
Proof.
  intros Hn Hx Hy Hw Hh. split; [reflexivity|].
  unfold Build.sample_nodes in Hn.
  apply list_lookup_fmap_Some in Hn as (k & -> & Hk).
  apply lookup_seq in Hk as [-> Hk]. cbn.
  repeat split; try done; by apply in_unit_scaled.
Qed.

(** [Math.floor(Math.random() * nodes.length)] is an index of the array. *)
Lemma pick_in_range (r : Q) (len : nat) :
  in_unit r -> 0 < len -> Build.pick r len < len.
Proof.
  intros [H0 H1] Hlen. unfold Build.pick.
  set (L := inject_Z (Z.of_nat len)).
  assert (HL : (0 < L)%Q) by (subst L; rewrite <- (Zlt_Qlt 0); lia).
  assert (Hlo : (0 <= Qfloor (r * L))%Z).
  { change 0%Z with (Qfloor 0). apply Qfloor_resp_le.
    apply Qmult_le_0_compat; [done | by apply Qlt_le_weak]. }
  assert (Hhi : (Qfloor (r * L) < Z.of_nat len)%Z).
  { rewrite Zlt_Qlt. apply Qle_lt_trans with (r * L)%Q; [apply Qfloor_le|].
    fold L. rewrite <- (Qmult_1_l L) at 2. by apply Qmult_lt_compat_r. }
  lia.
Qed.

Section GeneratedLinks.

Variable rnd_link : nat -> Q * Q.

Lemma gen_link_in_range (st : list Node * list Link) (k : nat) :
  in_unit (fst (rnd_link k)) -> in_unit (snd (rnd_link k)) ->
  0 < length (fst st) ->
  Forall (fun l => source l < length (fst st) /\ target l < length (fst st))
         (snd st) ->
  length (fst (Build.gen_link rnd_link st k)) = length (fst st)
  /\ length (snd (Build.gen_link rnd_link st k)) = S (length (snd st))
  /\ Forall (fun l => source l < length (fst st) /\ target l < length (fst st))
            (snd (Build.gen_link rnd_link st k)).
Proof.
  intros Hs Ht Hlen Hall. unfold Build.gen_link. cbn [fst snd].
  split; [|split].
  - case_bool_decide; rewrite ?length_alter; done.
  - rewrite length_app. cbn. lia.
  - apply Forall_app. split; [done|].
    apply Forall_singleton. cbn. split; by apply pick_in_range.
Qed.

Lemma foldl_gen_link_in_range (ks : list nat) :
  forall st : list Node * list Link,
    Forall (fun k => in_unit (fst (rnd_link k)) /\ in_unit (snd (rnd_link k))) ks ->
    0 < length (fst st) ->
    Forall (fun l => source l < length (fst st) /\ target l < length (fst st))
           (snd st) ->
    length (snd (foldl (Build.gen_link rnd_link) st ks))
    = length ks + length (snd st)
    /\ Forall (fun l => source l < length (fst st) /\ target l < length (fst st))
              (snd (foldl (Build.gen_link rnd_link) st ks)).
Proof.
  induction ks as [|k ks IH]; intros st Hks Hlen Hall; cbn [foldl]; [done|].
  apply Forall_cons in Hks as [[Hs Ht] Hks].
  destruct (gen_link_in_range st k Hs Ht Hlen Hall) as (L1 & L2 & A).
  destruct (IH (Build.gen_link rnd_link st k) Hks) as (L3 & B).
  - by rewrite L1.
  - by rewrite L1.
  - rewrite L1 in B. rewrite L3, L2. split; [cbn; lia | done].
Qed.

Lemma gen_links_in_range (ns : list Node) (ks : list nat) :
  Forall (fun k => in_unit (fst (rnd_link k)) /\ in_unit (snd (rnd_link k))) ks ->
  0 < length ns ->
  length (snd (Build.gen_links rnd_link ns ks)) <= length ks
  /\ Forall (fun l => source l < length ns /\ target l < length ns)
            (snd (Build.gen_links rnd_link ns ks)).
Proof.
  intros Hks Hlen. unfold Build.gen_links. cbn [fst snd].
  destruct (foldl_gen_link_in_range ks (ns, []) Hks Hlen) as (L & A);
    [by apply Forall_nil|].
  cbn [fst snd] in *. split.
  - etransitivity; [apply length_filter|]. rewrite L. cbn. lia.
  - apply Forall_forall. intros l Hl. apply list_elem_of_filter in Hl as [_ Hl].
    by apply (proj1 (Forall_forall _ _) A).
Qed.

End GeneratedLinks.

Lemma sample_links_in_range (rnd_link : nat -> Q * Q) (ns : list Node) :
  (forall k, k < 30 -> in_unit (fst (rnd_link k)) /\ in_unit (snd (rnd_link k))) ->
  0 < length ns ->
  length (snd (Build.sample_links rnd_link ns)) <= 30
  /\ Forall (fun l => source l < length ns /\ target l < length ns)
            (snd (Build.sample_links rnd_link ns)).
Proof.
  intros Hrnd Hlen.
  destruct (gen_links_in_range rnd_link ns (seq 0 30)) as [L A]; [|done|].
  - apply Forall_forall. intros k Hk. apply elem_of_seq in Hk. apply Hrnd. lia.
  - rewrite length_seq in L. split; assumption.
Qed.

Lemma total_linkCount_incr (i : nat) (ns : list Node) :
  i < length ns ->
  total_linkCount (alter Build.incr_linkCount i ns) = S (total_linkCount ns).
Proof.
  unfold total_linkCount. revert i.
  induction ns as [|n ns IH]; intros [|i] Hi; cbn in *; try lia.
  rewrite IH by lia. lia.
Qed.

Section Handshake.

Variable rnd_link : nat -> Q * Q.

Lemma gen_link_handshake (st : list Node * list Link) (k : nat) :
  in_unit (fst (rnd_link k)) -> in_unit (snd (rnd_link k)) ->
  0 < length (fst st) ->
  total_linkCount (fst (Build.gen_link rnd_link st k))
  + 2 * length (filter Build.not_self (snd st))
  = total_linkCount (fst st)
    + 2 * length (filter Build.not_self (snd (Build.gen_link rnd_link st k))).
Proof.
  intros Hs Ht Hlen. unfold Build.gen_link. cbn [fst snd].
  pose proof (pick_in_range _ _ Hs Hlen) as Hsrc.
  pose proof (pick_in_range _ _ Ht Hlen) as Htgt.
  set (s := Build.pick (fst (rnd_link k)) _) in *.
  set (t := Build.pick (snd (rnd_link k)) _) in *.
  rewrite filter_app, length_app.
  rewrite (filter_singleton Build.not_self (mkLink s t) []).
  destruct (decide (Build.not_self (mkLink s t))) as [Hst|Hst];
    unfold Build.not_self in Hst; cbn [source target] in Hst.
  - rewrite bool_decide_eq_true_2 by done.
    rewrite !total_linkCount_incr by (rewrite ?length_alter; done).
    cbn. lia.
  - rewrite bool_decide_eq_false_2 by done. cbn. lia.
Qed.

Lemma foldl_gen_link_handshake (ks : list nat) :
  forall st : list Node * list Link,
    Forall (fun k => in_unit (fst (rnd_link k)) /\ in_unit (snd (rnd_link k))) ks ->
    0 < length (fst st) ->
    total_linkCount (fst (foldl (Build.gen_link rnd_link) st ks))
    + 2 * length (filter Build.not_self (snd st))
    = total_linkCount (fst st)
      + 2 * length (filter Build.not_self
                      (snd (foldl (Build.gen_link rnd_link) st ks))).
Proof.
  induction ks as [|k ks IH]; intros st Hks Hlen; cbn [foldl]; [lia|].
  apply Forall_cons in Hks as [[Hs Ht] Hks].
  pose proof (gen_link_handshake st k Hs Ht Hlen) as E1.
  assert (Hlen' : 0 < length (fst (Build.gen_link rnd_link st k))).
  { unfold Build.gen_link. cbn [fst].
    case_bool_decide; rewrite ?length_alter; done. }
  pose proof (IH _ Hks Hlen') as E2. lia.
Qed.

Lemma gen_links_handshake (ns : list Node) (ks : list nat) :
  Forall (fun k => in_unit (fst (rnd_link k)) /\ in_unit (snd (rnd_link k))) ks ->
  0 < length ns ->
  total_linkCount (fst (Build.gen_links rnd_link ns ks))
  = total_linkCount ns + 2 * length (snd (Build.gen_links rnd_link ns ks)).
Proof.
  intros Hks Hlen. unfold Build.gen_links. cbn [fst snd].
  pose proof (foldl_gen_link_handshake ks (ns, []) Hks Hlen) as E.
  cbn [fst snd] in E. rewrite filter_nil in E. cbn in E. lia.
Qed.

End Handshake.

Lemma sample_links_handshake (rnd_link : nat -> Q * Q) (ns : list Node) :
  (forall k, k < 30 -> in_unit (fst (rnd_link k)) /\ in_unit (snd (rnd_link k))) ->
  0 < length ns ->
  total_linkCount (fst (Build.sample_links rnd_link ns))
  = total_linkCount ns + 2 * length (snd (Build.sample_links rnd_link ns)).
Proof.
  intros Hrnd Hlen. apply gen_links_handshake; [|done].
  apply Forall_forall. intros k Hk. apply elem_of_seq in Hk. apply Hrnd. lia.
Qed.

Lemma sample_nodes_length (rnd_pos : nat -> Q * Q) (width height : Q) :
  length (Build.sample_nodes rnd_pos width height) = 20.
Proof. reflexivity. Qed.

Lemma sample_nodes_total (rnd_pos : nat -> Q * Q) (width height : Q) :
  total_linkCount (Build.sample_nodes rnd_pos width height) = 0.
Proof. reflexivity. Qed.

Lemma total_linkCount_set_circle (ns : list Node) :
  total_linkCount (imap (fun i n => set_circle (Some i) n) ns)
  = total_linkCount ns.
Proof.
  unfold total_linkCount.
  assert (H : forall (k : nat) (l : list Node),
             sum_list_with linkCount (imap (fun i n => set_circle (Some (k + i)) n) l)
             = sum_list_with linkCount l).
  { intros k l. revert k. induction l as [|n l IH]; intros k; cbn; [done|].
    f_equal. rewrite <- (IH (S k)). f_equal. apply imap_ext.
    intros i a _. cbn. do 2 f_equal. lia. }
  apply (H 0).
Qed.

Section SampleGraph.

Variables rnd_pos rnd_link : nat -> Q * Q.
Variables width height : Q.

Hypothesis rnd_link_unit :
  forall k, k < 30 -> in_unit (fst (rnd_link k)) /\ in_unit (snd (rnd_link k)).

(** X2.  With draws in [0, 1) the graph has twenty nodes and at most thirty
    links, and both ends of every link are nodes of the array: the render
    skips no link. *)
Theorem sample_graph_links_are_drawable :
  let w := initial_world rnd_pos rnd_link width height in
  length (nodes w) = 20
  /\ length (links w) <= 30
  /\ Forall (drawable (nodes w)) (links w).
Proof.
  cbn zeta. rewrite initial_world_scene.
  pose proof (sample_links_in_range rnd_link
                (Build.sample_nodes rnd_pos width height) rnd_link_unit) as Hr.
  pose proof (sample_links_length rnd_link
                (Build.sample_nodes rnd_pos width height)) as Hlen.
  rewrite sample_nodes_length in Hr, Hlen.
  destruct Hr as [Hle Hall]; [lia|].
  revert Hlen Hle Hall.
  generalize (Build.sample_links rnd_link
                (Build.sample_nodes rnd_pos width height)).
  intros built Hlen Hle Hall. cbn [scene nodes links].
  rewrite length_imap. split; [done|]. split; [done|].
  eapply Forall_impl; [exact Hall|].
  intros l [Hs Ht]. unfold drawable. rewrite !list_lookup_imap.
  split; apply fmap_is_Some, lookup_lt_is_Some; lia.
Qed.

(** X3.  With draws in [0, 1) the link counts of the nodes add up to twice the
    number of links. *)
Theorem sample_graph_handshake :
  let w := initial_world rnd_pos rnd_link width height in
  total_linkCount (nodes w) = 2 * length (links w).
Proof.
  cbn zeta. rewrite initial_world_scene.
  pose proof (sample_links_handshake rnd_link
                (Build.sample_nodes rnd_pos width height) rnd_link_unit) as E.
  rewrite sample_nodes_length, sample_nodes_total in E.
  specialize (E ltac:(lia)). revert E.
  generalize (Build.sample_links rnd_link
                (Build.sample_nodes rnd_pos width height)).
  intros built E. cbn [scene nodes links].
  rewrite total_linkCount_set_circle. lia.
Qed.

End SampleGraph.

(** X4.  Whatever the draws, the [linkCount] of a node of the graph that is
    built is the number of links incident to it. *)
Theorem linkCount_counts_incident_links
        (rnd_pos rnd_link : nat -> Q * Q) (width height : Q)
        (i : nat) (n : Node) :
  nodes (initial_world rnd_pos rnd_link width height) !! i = Some n ->
  linkCount n
  = Build.degree (links (initial_world rnd_pos rnd_link width height)) i.
Proof.
  rewrite initial_world_scene.
  pose proof (sample_links_length rnd_link
                (Build.sample_nodes rnd_pos width height)) as Hlen.
  pose proof (sample_links_linkCount rnd_link
                (Build.sample_nodes rnd_pos width height) i) as Hcount.
  revert Hlen Hcount.
  generalize (Build.sample_links rnd_link
                (Build.sample_nodes rnd_pos width height)).
  intros built Hlen Hcount H. cbn [scene nodes links] in *.
  apply list_lookup_imap_Some in H as (n1 & H1 & ->).
  destruct (lookup_lt_is_Some_2 (Build.sample_nodes rnd_pos width height) i)
    as [n0 H0]; [apply lookup_lt_Some in H1; by rewrite Hlen in H1|].
  destruct (Hcount n0 H0 (sample_nodes_linkCount _ _ _ _ _ H0))
    as (n' & Hn' & E).
  rewrite H1 in Hn'. inversion Hn'; subst. exact E.
Qed.

(** ** The drag handlers *)

Lemma World_eq (w1 w2 : World) :
  nodes w1 = nodes w2 -> links w1 = links w2 -> graphics w1 = graphics w2 ->
  circles w1 = circles w2 -> dragTarget w1 = dragTarget w2 ->
  simulation w1 = simulation w2 -> stage w1 = stage w2 ->
  w1 = w2.
Proof. destruct w1, w2. cbn. intros. by subst. Qed.

Lemma onDragMove_fields (gx gy : Q) (w : World) (c : nat) :
  dragTarget w = Some c ->
  let w' := onDragMove gx gy w in
  nodes w' = match dragTarget_node w with
             | Some i => alter (set_fy (Some gy) ∘ set_fx (Some gx)) i (nodes w)
             | None => nodes w
             end
  /\ links w' = links w /\ graphics w' = graphics w /\ circles w' = circles w
  /\ dragTarget w' = dragTarget w /\ simulation w' = reheat (simulation w)
  /\ stage w' = stage w.
Proof.
  intros Hd. cbn zeta. unfold onDragMove. rewrite Hd.
  destruct (dragTarget_node w) as [i|] eqn:E.
  - destruct (assign_twice (set_fx (Some gx)) (set_fy (Some gy)) w i E)
      as (N & L & G & C & D & Sm & T).
    cbn zeta in *. cbn. rewrite N, L, G, C, D, Sm, T. repeat split; done.
  - rewrite assign_twice_idle by done. cbn. repeat split; done.
Qed.

Lemma onDragEnd_dragTarget (w : World) : dragTarget (onDragEnd w) = None.
Proof. unfold onDragEnd. destruct (dragTarget w) eqn:E; [reflexivity | done]. Qed.

(** X5.  Pointer-moves compose to the last one: after two moves the pin is
    where the second one put it, and the state is the one a single move
    to that point gives. *)
Theorem pointer_moves_compose (gx gy hx hy : Q) (w : World) :
  onDragMove hx hy (onDragMove gx gy w) = onDragMove hx hy w.
Proof.
  destruct (dragTarget w) as [c|] eqn:Hd; [|by rewrite (onDragMove_idle gx gy)].
  destruct (onDragMove_fields gx gy w c Hd) as (N & L & G & C & D & Sm & T).
  destruct (onDragMove_fields hx hy w c Hd) as (N2 & L2 & G2 & C2 & D2 & Sm2 & T2).
  cbn zeta in *.
  assert (Hd1 : dragTarget (onDragMove gx gy w) = Some c) by congruence.
  destruct (onDragMove_fields hx hy _ c Hd1) as (N1 & L1 & G1 & C1 & D1 & Sm1 & T1).
  cbn zeta in *.
  assert (E : dragTarget_node (onDragMove gx gy w) = dragTarget_node w)
    by (unfold dragTarget_node; rewrite D, C; done).
  apply World_eq; try congruence.
  - rewrite N1, N2, E, N. destruct (dragTarget_node w); [|done].
    rewrite list_alter_alter_eq. apply list_alter_ext; [|done].
    intros [] _. reflexivity.
  - rewrite Sm1, Sm2, Sm. reflexivity.
Qed.

(** X6.  Releasing twice is releasing once, and a pointer-move after the
    release changes nothing. *)
Theorem release_is_final (gx gy : Q) (w : World) :
  onDragEnd (onDragEnd w) = onDragEnd w
  /\ onDragMove gx gy (onDragEnd w) = onDragEnd w.
Proof.
  split.
  - apply onDragEnd_idle, onDragEnd_dragTarget.
  - apply onDragMove_idle, onDragEnd_dragTarget.
Qed.

(** X7.  The drag handlers write pins, opacities and subscriptions only: they
    move no node, change no link count, no link, nothing that is drawn,
    and no reference between circles and nodes. *)
Theorem drag_handlers_write_pins_only (c : nat) (gx gy : Q) (w : World) :
  let kept w' :=
    unpinned_part <$> nodes w' = unpinned_part <$> nodes w
    /\ links w' = links w /\ graphics w' = graphics w
    /\ geometry <$> circles w' = geometry <$> circles w
    /\ node <$> circles w' = node <$> circles w in
  kept (onDragStart c gx gy w) /\ kept (onDragMove gx gy w) /\ kept (onDragEnd w).
Proof.
  cbn zeta. repeat split; handler_cases;
    rewrite ?fmap_alter_same by done; done.
Qed.

(** X8.  The wiring of the scene (see [wired]) is set up by [scene] and kept by
    every handler and by the render. *)
Theorem wiring_is_set_up_and_kept :
  (forall ns ls, wired (scene ns ls))
  /\ (forall w, wired w ->
        (forall c gx gy, is_Some (circles w !! c) -> wired (onDragStart c gx gy w))
        /\ (forall gx gy, wired (onDragMove gx gy w))
        /\ wired (onDragEnd w)
        /\ wired (updatePositions w)).
Proof.
  split; [apply scene_wired|]. intros w Hw. split; [|split; [|split]].
  - intros c gx gy [g Hg]. by apply (onDragStart_wired c gx gy w g).
  - intros gx gy. by apply onDragMove_wired.
  - by apply onDragEnd_wired.
  - by apply updatePositions_wired.
Qed.

Lemma alter_restore {A : Type} (f : A -> A) (i : nat) (l : list A) (a : A) :
  l !! i = Some a -> f a = a -> alter f i l = l.
Proof.
  intros Hi Hf. apply list_eq. intros j. rewrite list_lookup_alter.
  case_decide; subst; [|done]. rewrite Hi. cbn. by rewrite Hf.
Qed.

(** X9.  A press and a release with no move in between undo each other: on an
    idle scene, pressing a free, fully opaque node and releasing gives the
    state back as it was. *)
Theorem press_and_release_restores
        (w : World) (c : nat) (gx gy : Q) (n : Node) (g : Graphics) :
  wired w -> dragTarget w = None ->
  nodes w !! c = Some n -> fx n = None -> fy n = None ->
  circles w !! c = Some g -> alpha g = 1%Q ->
  sim_alphaTarget (simulation w) = 0%Q ->
  onDragEnd (onDragStart c gx gy w) = w.
Proof.
  intros Hw Hd Hn Hfx Hfy Hg Ha Ht.
  destruct (wired_circle_inv w c g Hw Hg) as [_ Hng].
  pose proof Hw as (Hup & Hout & _ & _ & Hpm). rewrite Hd in Hpm.
  destruct (onDragStart_effect c gx gy w c g Hg Hng)
    as (N & L & G & C & D & Sm & T).
  cbn zeta in *.
  assert (Hg1 : circles (onDragStart c gx gy w) !! c = Some (set_alpha (1 # 2) g))
    by (rewrite C, list_lookup_alter_eq, Hg; done).
  destruct (onDragEnd_dragging (onDragStart c gx gy w) c c _ D Hg1 Hng)
    as (N' & L' & G' & C' & D' & Sm' & T').
  cbn zeta in *.
  apply World_eq; try congruence.
  - rewrite N', N, list_alter_alter_eq. apply (alter_restore _ _ _ n Hn).
    destruct n. cbn in *. by subst.
  - rewrite C', C, list_alter_alter_eq. apply (alter_restore _ _ _ g Hg).
    destruct g. cbn in *. by subst.
  - rewrite Sm', Sm. destruct (simulation w). cbn in *. by subst.
  - rewrite T', T. cbn. destruct (stage w). cbn in *. by subst.
Qed.

(** X10.  A drag that is taken over is never ended: when a second node is
    pressed during a drag and the pointer is then released, the second
    node is freed but the first stays pinned where it was pressed, with its
    circle dimmed, although no drag is in progress any more. *)
Theorem taken_over_node_stays_pinned
        (w : World) (c0 c1 : nat) (gx gy hx hy : Q) :
  wired w ->
  c0 < length (nodes w) -> c1 < length (nodes w) -> c0 <> c1 ->
  let w' := onDragEnd (onDragStart c1 hx hy (onDragStart c0 gx gy w)) in
  dragTarget w' = None
  /\ pointermove (stage w') = 0
  /\ (exists n0, nodes w' !! c0 = Some n0 /\ fx n0 = Some gx /\ fy n0 = Some gy)
  /\ (exists g0, circles w' !! c0 = Some g0 /\ alpha g0 = (1 # 2)%Q)
  /\ (exists n1, nodes w' !! c1 = Some n1 /\ fx n1 = None /\ fy n1 = None)
  /\ (exists g1, circles w' !! c1 = Some g1 /\ alpha g1 = 1%Q).
Proof.
  intros Hw H0 H1 Hne. cbn zeta.
  destruct (wired_circle w c0 Hw H0) as (g0 & Hg0 & Hn0).
  destruct (wired_circle w c1 Hw H1) as (g1 & Hg1 & Hn1).
  destruct (lookup_lt_is_Some_2 (nodes w) c0 H0) as [n0 Hk0].
  destruct (lookup_lt_is_Some_2 (nodes w) c1 H1) as [n1 Hk1].
  destruct (onDragStart_effect c0 gx gy w c0 g0 Hg0 Hn0)
    as (N & _ & _ & C & _ & _ & _).
  cbn zeta in *. set (wa := onDragStart c0 gx gy w) in *.
  assert (Hga : circles wa !! c1 = Some g1)
    by (rewrite C, list_lookup_alter_ne by done; done).
  destruct (onDragStart_effect c1 hx hy wa c1 g1 Hga Hn1)
    as (Nb & _ & _ & Cb & Db & _ & _).
  cbn zeta in *. set (wb := onDragStart c1 hx hy wa) in *.
  assert (Hgb : circles wb !! c1 = Some (set_alpha (1 # 2) g1))
    by (rewrite Cb, list_lookup_alter_eq, Hga; done).
  destruct (onDragEnd_dragging wb c1 c1 _ Db Hgb Hn1)
    as (Nc & _ & _ & Cc & Dc & _ & Tc).
  cbn zeta in *. rewrite Nc, Cc, Dc, Tc, Nb, Cb, N, C.
  split; [done|]. split; [done|]. split; [|split; [|split]].
  - exists (set_fy (Some gy) (set_fx (Some gx) n0)).
    rewrite !list_lookup_alter_ne by done.
    rewrite list_lookup_alter_eq, Hk0. done.
  - exists (set_alpha (1 # 2) g0).
    rewrite !list_lookup_alter_ne by done.
    rewrite list_lookup_alter_eq, Hg0. done.
  - eexists. rewrite !list_lookup_alter_eq.
    rewrite list_lookup_alter_ne by done. rewrite Hk1. done.
  - eexists. rewrite !list_lookup_alter_eq.
    rewrite list_lookup_alter_ne by done. rewrite Hg1. done.
Qed.

(** ** The render *)

Lemma draw_keeps (c : Cmd) (g : Graphics) :
  alpha (draw c g) = alpha g /\ node (draw c g) = node g.
Proof. by destruct c. Qed.

Lemma foldl_exec_keeps (calls : list (Target * Cmd)) :
  forall w : World,
    alpha (graphics (foldl exec w calls)) = alpha (graphics w)
    /\ node (graphics (foldl exec w calls)) = node (graphics w)
    /\ alpha <$> circles (foldl exec w calls) = alpha <$> circles w
    /\ node <$> circles (foldl exec w calls) = node <$> circles w.
Proof.
  induction calls as [|[t c] calls IH]; intros w; cbn [foldl]; [done|].
  destruct (IH (exec w (t, c))) as (A & N & As & Ns).
  rewrite A, N, As, Ns. unfold exec. cbn [fst snd].
  destruct t; cbn; rewrite ?fmap_alter_same by (intros; apply draw_keeps);
    repeat split; try done; apply draw_keeps.
Qed.

(** X11.  The render changes what is drawn and nothing else: no node, no link,
    no drag target, nothing of the simulation, no subscription, no
    opacity, and no reference from a circle to its node. *)
Theorem render_changes_geometry_only (w : World) :
  nodes (updatePositions w) = nodes w
  /\ links (updatePositions w) = links w
  /\ dragTarget (updatePositions w) = dragTarget w
  /\ simulation (updatePositions w) = simulation w
  /\ stage (updatePositions w) = stage w
  /\ alpha (graphics (updatePositions w)) = alpha (graphics w)
  /\ alpha <$> circles (updatePositions w) = alpha <$> circles w
  /\ node <$> circles (updatePositions w) = node <$> circles w.
Proof.
  destruct (updatePositions_frame w) as (N & L & D & Sm & T).
  destruct (foldl_exec_keeps (updatePositions_calls w) w) as (A & _ & As & Ns).
  repeat split; assumption.
Qed.

Lemma draw_all_record (cs : list Cmd) :
  forall g : Graphics,
    clear ∉ cs ->
    draw_all cs g = mkGraphics (alpha g) (geometry g ++ cs) (node g).
Proof.
  unfold draw_all.
  induction cs as [|c cs IH]; intros g Hc; cbn [foldl].
  - rewrite app_nil_r. by destruct g.
  - rewrite IH by (intros ?; apply Hc; by right).
    assert (c <> clear) by (intros ->; apply Hc; by left).
    destruct c; try done; cbn; by rewrite <- app_assoc.
Qed.

Lemma link_layer_geometry_no_clear (ns : list Node) (ls : list Link) :
  clear ∉ link_layer_geometry ns ls.
Proof.
  unfold link_layer_geometry. intros H.
  apply elem_of_cons in H as [H|H]; [discriminate|].
  apply elem_of_cons in H as [H|H]; [discriminate|].
  apply elem_of_app in H as [H|H].
  - by apply link_calls_lines in H.
  - apply list_elem_of_singleton in H. discriminate.
Qed.

Lemma updatePositions_graphics (w : World) :
  graphics (updatePositions w)
  = mkGraphics (alpha (graphics w))
               (link_layer_geometry (nodes w) (links w))
               (node (graphics w)).
Proof.
  unfold updatePositions, updatePositions_calls.
  rewrite foldl_app, foldl_exec_circles_graphics, foldl_exec_graphics.
  cbn [app]. rewrite draw_all_clear.
  change (beginFill 0 0 :: lineStyle 2 16777215 (6 # 10)
            :: concat (map (link_calls (nodes w)) (links w)) ++ [endFill])
    with (link_layer_geometry (nodes w) (links w)).
  rewrite draw_all_record by apply link_layer_geometry_no_clear.
  reflexivity.
Qed.

Lemma updatePositions_circle (w : World) (c : nat) (n : Node) (g : Graphics) :
  wired w -> nodes w !! c = Some n -> circles w !! c = Some g ->
  circles (updatePositions w) !! c
  = Some (mkGraphics (alpha g) (circle_geometry n) (node g)).
Proof.
  intros Hw Hn Hg.
  pose proof (wired_node_circle w c n Hw Hn) as Hc.
  unfold updatePositions, updatePositions_calls.
  set (A := map (pair LinkLayer) _).
  rewrite foldl_app.
  rewrite <- (take_drop_middle _ _ _ Hn).
  rewrite map_app, concat_app. cbn [map concat]. rewrite !foldl_app.
  rewrite node_calls_other_circle.
  - apply node_calls_own_circle; [done|].
    subst A. rewrite node_calls_other_circle, link_layer_calls_circles; [done|].
    apply Forall_forall. intros n' Hn' Hc'.
    apply elem_of_take in Hn' as (k' & Hk' & Hlt).
    pose proof (wired_node_circle w k' n' Hw Hk') as E.
    rewrite Hc' in E. inversion E. lia.
  - apply Forall_forall. intros n' Hn' Hc'.
    apply list_elem_of_lookup_1 in Hn' as (j & Hj).
    rewrite lookup_drop in Hj.
    pose proof (wired_node_circle w _ n' Hw Hj) as E.
    rewrite Hc' in E. inversion E. lia.
Qed.

Lemma wired_lengths (w : World) : wired w -> length (circles w) = length (nodes w).
Proof.
  intros (_ & _ & Hc & _). apply (f_equal length) in Hc.
  by rewrite !length_fmap, length_seq in Hc.
Qed.

Lemma updatePositions_circles_length (w : World) :
  length (circles (updatePositions w)) = length (circles w).
Proof.
  destruct (foldl_exec_keeps (updatePositions_calls w) w) as (_ & _ & _ & Ns).
  apply (f_equal length) in Ns. by rewrite !length_fmap in Ns.
Qed.

(** X12.  Rendering twice in a row gives what rendering once gives. *)
Theorem render_is_idempotent (w : World) :
  wired w -> updatePositions (updatePositions w) = updatePositions w.
Proof.
  intros Hw.
  pose proof (updatePositions_wired w Hw) as Hw'.
  destruct (updatePositions_frame w) as (N & L & D & Sm & T).
  destruct (updatePositions_frame (updatePositions w)) as (N' & L' & D' & Sm' & T').
  apply World_eq; try congruence.
  - rewrite !updatePositions_graphics, N, L. reflexivity.
  - apply list_eq. intros c.
    destruct (nodes w !! c) as [n|] eqn:Hn.
    + destruct (wired_circle w c Hw) as (g & Hg & _);
        [by apply lookup_lt_Some in Hn|].
      pose proof (updatePositions_circle w c n g Hw Hn Hg) as E.
      rewrite (updatePositions_circle (updatePositions w) c n _ Hw'
                 ltac:(by rewrite N) E).
      rewrite E. reflexivity.
    + apply lookup_ge_None in Hn.
      rewrite !(proj2 (lookup_ge_None _ _));
        rewrite ?updatePositions_circles_length, ?(wired_lengths w Hw); done.
Qed.

Lemma link_calls_set_circle (ns : list Node) (l : Link) :
  link_calls (imap (fun i n => set_circle (Some i) n) ns) l = link_calls ns l.
Proof.
  unfold link_calls. rewrite !list_lookup_imap.
  destruct (ns !! source l), (ns !! target l); reflexivity.
Qed.

(** X13.  The setup draws the scene as the tick callback does: the first render
    after the setup changes nothing. *)
Theorem first_render_changes_nothing (ns : list Node) (ls : list Link) :
  updatePositions (scene ns ls) = scene ns ls.
Proof.
  pose proof (scene_wired ns ls) as Hw.
  destruct (updatePositions_frame (scene ns ls)) as (N & L & D & Sm & T).
  apply World_eq; try done.
  - rewrite updatePositions_graphics. cbn [scene graphics nodes links alpha node].
    unfold link_layer_geometry.
    rewrite (map_ext _ _ (link_calls_set_circle ns)).
    rewrite (draw_all_record _ _ (link_layer_geometry_no_clear ns ls)).
    reflexivity.
  - apply list_eq. intros c.
    destruct (nodes (scene ns ls) !! c) as [n|] eqn:Hn.
    + destruct (wired_circle _ c Hw) as (g & Hg & _);
        [by apply lookup_lt_Some in Hn|].
      rewrite (updatePositions_circle _ c n g Hw Hn Hg), Hg.
      cbn [scene nodes circles] in Hn, Hg.
      apply list_lookup_imap_Some in Hn as (n0 & Hn0 & ->).
      apply list_lookup_imap_Some in Hg as (n1 & Hn1 & ->).
      rewrite Hn0 in Hn1. inversion Hn1; subst. reflexivity.
    + apply lookup_ge_None in Hn.
      rewrite !(proj2 (lookup_ge_None _ _));
        rewrite ?updatePositions_circles_length, ?(wired_lengths _ Hw); done.
Qed.

Lemma filter_none {A : Type} (P : A -> Prop) `{forall a, Decision (P a)} (l : list A) :
  Forall (fun a => ~ P a) l -> filter P l = [].
Proof.
  induction 1 as [|a l Ha _ IH]; [done|].
  by rewrite filter_cons_False.
Qed.

Lemma link_part_counts (ns : list Node) (ls : list Link) :
  length (filter (fun call : Target * Cmd => is_line (snd call))
                 (map (pair LinkLayer) (concat (map (link_calls ns) ls))))
  = 2 * length (filter (drawable ns) ls).
Proof.
  induction ls as [|l ls IH]; [done|].
  cbn [map concat]. rewrite map_app, filter_app, length_app, IH.
  destruct (decide (drawable ns l)) as [Hd|Hd].
  - rewrite filter_cons_True by done.
    destruct Hd as [[s Hs] [t Ht]]. unfold link_calls. rewrite Hs, Ht.
    cbn [map]. rewrite !filter_cons_True by exact I.
    cbn. lia.
  - rewrite filter_cons_False by done.
    unfold link_calls.
    destruct (ns !! source l) as [s|] eqn:Hs, (ns !! target l) as [t|] eqn:Ht;
      try (cbn; lia).
    exfalso. apply Hd. unfold drawable. rewrite Hs, Ht. split; by eexists.
Qed.

Lemma node_part_counts (ns : list Node) :
  length (filter (fun call : Target * Cmd => is_circle (snd call))
                 (concat (map node_calls ns)))
  = length (filter (fun n => is_Some (circle n)) ns).
Proof.
  induction ns as [|n ns IH]; [done|].
  cbn [map concat]. rewrite filter_app, length_app, IH, filter_cons.
  unfold node_calls.
  destruct (circle n) as [c|]; destruct (decide _) as [Hc|Hc].
  - reflexivity.
  - exfalso. apply Hc. by eexists.
  - by destruct Hc.
  - reflexivity.
Qed.

(** X14.  A render draws one circle per node that has one and one segment (a
    [moveTo] and a [lineTo]) per link between nodes of the array: with no
    link it draws no line, with no node no circle. *)
Theorem render_draws_each_node_and_link_once (w : World) :
  length (filter (fun call : Target * Cmd => is_circle (snd call))
                 (updatePositions_calls w))
  = length (filter (fun n => is_Some (circle n)) (nodes w))
  /\ length (filter (fun call : Target * Cmd => is_line (snd call))
                    (updatePositions_calls w))
     = 2 * length (filter (drawable (nodes w)) (links w)).
Proof.
  unfold updatePositions_calls.
  rewrite !filter_app, !length_app, !map_app, !filter_app, !length_app.
  rewrite node_part_counts, link_part_counts.
  rewrite (filter_none (fun call : Target * Cmd => is_circle (snd call))
             (map (pair LinkLayer) (concat (map (link_calls (nodes w)) (links w))))).
  - rewrite (filter_none (fun call : Target * Cmd => is_line (snd call))
               (concat (map node_calls (nodes w)))).
    + change (filter (fun call : Target * Cmd => is_circle (snd call))
                (map (pair LinkLayer)
                     [clear; beginFill 0 0; lineStyle 2 16777215 (6 # 10)]))
        with (@nil (Target * Cmd)).
      change (filter (fun call : Target * Cmd => is_circle (snd call))
                (map (pair LinkLayer) [endFill]))
        with (@nil (Target * Cmd)).
      change (filter (fun call : Target * Cmd => is_line (snd call))
                (map (pair LinkLayer)
                     [clear; beginFill 0 0; lineStyle 2 16777215 (6 # 10)]))
        with (@nil (Target * Cmd)).
      change (filter (fun call : Target * Cmd => is_line (snd call))
                (map (pair LinkLayer) [endFill]))
        with (@nil (Target * Cmd)).
      cbn [length]. lia.
    + apply Forall_forall. intros call Hc.
      apply node_calls_no_line in Hc. rewrite Hc. auto.
  - apply Forall_forall. intros call Hc.
    apply list_elem_of_fmap in Hc as (c & -> & Hc).
    apply link_calls_lines in Hc. destruct c; cbn in *; try discriminate; auto.
Qed.

(** X15.  Every link between two nodes of the array is drawn as a segment from
    the current position of its source to the current position of its
    target. *)
Theorem link_is_drawn_between_its_ends
        (w : World) (l : Link) (s t : Node) :
  l ∈ links w ->
  nodes w !! source l = Some s -> nodes w !! target l = Some t ->
  exists j,
    updatePositions_calls w !! j = Some (LinkLayer, moveTo (x s) (y s))
    /\ updatePositions_calls w !! S j = Some (LinkLayer, lineTo (x t) (y t)).
Proof.
  intros Hl Hs Ht.
  apply list_elem_of_split in Hl as (l1 & l2 & E).
  assert (Ecalls : exists pre post,
             updatePositions_calls w
             = pre ++ (LinkLayer, moveTo (x s) (y s))
                   :: (LinkLayer, lineTo (x t) (y t)) :: post).
  { unfold updatePositions_calls. rewrite E.
    rewrite (map_app (link_calls (nodes w))), concat_app. cbn [map concat].
    unfold link_calls at 2. rewrite Hs, Ht.
    eexists (map (pair LinkLayer)
               ([clear; beginFill 0 0; lineStyle 2 16777215 (6 # 10)]
                  ++ concat (map (link_calls (nodes w)) l1))).
    eexists (map (pair LinkLayer)
               (concat (map (link_calls (nodes w)) l2) ++ [endFill])
               ++ concat (map node_calls (nodes w))).
    rewrite !map_app. cbn [map app]. rewrite <- !app_assoc. reflexivity. }
  destruct Ecalls as (pre & post & ->).
  exists (length pre). split.
  - by apply list_lookup_middle.
  - rewrite lookup_app_r by apply Nat.le_succ_diag_r.
    rewrite Nat.sub_succ_l, Nat.sub_diag by done. reflexivity.
Qed.

(** ** The further properties at work on the concrete instance *)

Lemma sample_nodes_layout_witness :
  in_unit (fst (Demo.rnd_pos 3)) /\ in_unit (snd (Demo.rnd_pos 3))
  /\ exists n,
      Build.sample_nodes Demo.rnd_pos 800 600 !! 3 = Some n
      /\ length (Build.sample_nodes Demo.rnd_pos 800 600) = 20
      /\ 3 < 20 /\ id n = 3 /\ linkCount n = 0 /\ fx n = None /\ fy n = None
      /\ (0 <= x n < 800)%Q /\ (0 <= y n < 600)%Q.
Proof.
  split; [evaluate_fact|]. split; [evaluate_fact|].
  eexists. split; [vm_compute; reflexivity|].
  eapply (sample_nodes_layout Demo.rnd_pos 800 600 3).
  - vm_compute. reflexivity.
  - evaluate_fact.
  - evaluate_fact.
  - reflexivity.
  - reflexivity.
Defined.

Lemma sample_graph_links_are_drawable_witness :
  length (nodes Demo.world) = 20
  /\ length (links Demo.world) <= 30
  /\ Forall (drawable (nodes Demo.world)) (links Demo.world).
Proof.
  apply (sample_graph_links_are_drawable Demo.rnd_pos Demo.rnd_link 800 600).
  demo_draws.
Defined.

Lemma sample_graph_handshake_witness :
  length (links Demo.world) = 24
  /\ total_linkCount (nodes Demo.world) = 2 * length (links Demo.world).
Proof.
  split; [vm_compute; reflexivity|].
  apply (sample_graph_handshake Demo.rnd_pos Demo.rnd_link 800 600).
  demo_draws.
Defined.

Lemma linkCount_counts_incident_links_witness :
  exists n,
    nodes Demo.world !! 2 = Some n
    /\ Build.degree (links Demo.world) 2 = 4
    /\ linkCount n = Build.degree (links Demo.world) 2.
Proof.
  eexists. split; [vm_compute; reflexivity|]. split; [vm_compute; reflexivity|].
  eapply (linkCount_counts_incident_links Demo.rnd_pos Demo.rnd_link 800 600 2).
  vm_compute. reflexivity.
Defined.

Lemma press_and_release_restores_witness :
  wired Demo.cooled /\ dragTarget Demo.cooled = None
  /\ sim_alphaTarget (simulation Demo.cooled) = 0%Q
  /\ onDragEnd (onDragStart 4 30 40 Demo.cooled) = Demo.cooled.
Proof.
  split; [evaluate_fact|]. split; [vm_compute; reflexivity|].
  split; [vm_compute; reflexivity|].
  eapply (press_and_release_restores Demo.cooled 4 30 40).
  - evaluate_fact.
  - vm_compute. reflexivity.
  - vm_compute. reflexivity.
  - reflexivity.
  - reflexivity.
  - vm_compute. reflexivity.
  - reflexivity.
  - vm_compute. reflexivity.
Defined.

Lemma taken_over_node_stays_pinned_witness :
  wired Demo.world
  /\ let w' := onDragEnd (onDragStart 1 20 20 (onDragStart 0 10 10 Demo.world)) in
     dragTarget w' = None
     /\ pointermove (stage w') = 0
     /\ (exists n0, nodes w' !! 0 = Some n0
                    /\ fx n0 = Some 10%Q /\ fy n0 = Some 10%Q)
     /\ (exists g0, circles w' !! 0 = Some g0 /\ alpha g0 = (1 # 2)%Q)
     /\ (exists n1, nodes w' !! 1 = Some n1 /\ fx n1 = None /\ fy n1 = None)
     /\ (exists g1, circles w' !! 1 = Some g1 /\ alpha g1 = 1%Q).
Proof.
  split; [evaluate_fact|].
  apply (taken_over_node_stays_pinned Demo.world 0 1 10 10 20 20).
  - evaluate_fact.
  - vm_compute. lia.
  - vm_compute. lia.
  - discriminate.
Defined.

Lemma render_is_idempotent_witness :
  wired Demo.dragging
  /\ updatePositions (updatePositions Demo.dragging) = updatePositions Demo.dragging.
Proof.
  split; [evaluate_fact|].
  apply (render_is_idempotent Demo.dragging). evaluate_fact.
Defined.

Lemma link_is_drawn_between_its_ends_witness :
  mkLink 1 4 ∈ links Demo.world
  /\ exists s t,
      nodes Demo.world !! 1 = Some s /\ nodes Demo.world !! 4 = Some t
      /\ exists j,
          updatePositions_calls Demo.world !! j
          = Some (LinkLayer, moveTo (x s) (y s))
          /\ updatePositions_calls Demo.world !! S j
             = Some (LinkLayer, lineTo (x t) (y t)).
Proof.
  assert (Hl : mkLink 1 4 ∈ links Demo.world)
    by (apply list_elem_of_lookup_2 with 0; vm_compute; reflexivity).
  split; [exact Hl|].
  eexists. eexists.
  split; [vm_compute; reflexivity|]. split; [vm_compute; reflexivity|].
  eapply (link_is_drawn_between_its_ends Demo.world (mkLink 1 4)).
  - exact Hl.
  - vm_compute. reflexivity.
  - vm_compute. reflexivity.
Defined.
